(** * dyngo: the operation tree and its event bus, and the intake payloads

    A shallow embedding of package [dyngo] (operation registration, start,
    data and finish events bubbling up the operation stack) and of package
    [api] (the attack-event payloads built from security events).

    Go pointers to operations are addresses into a heap of operations, the
    package-level maps are finite maps, a panic is an outcome of its own, and
    a deferred call runs on both the returning and the panicking path.  The
    bodies of event listeners are opaque: invoking one is recorded as a call
    in a trace, in the order the code performs the invocations, and a
    callback is taken not to call back into the package while an event is
    dispatched.  Locks are not modelled; the semantics is that of one
    goroutine. *)

From Stdlib Require Import ZArith NArith Ascii.
From Stdlib Require DecimalString DecimalPos DecimalN.
From stdpp Require Import gmap strings list fin_maps.

Module dyngo.

(** ** Types and values *)

(** [reflect.Type]: a type descriptor, compared by identity.  [None] is the
    nil descriptor, which is what [reflect.TypeOf] returns for the nil
    interface value. *)
Abbreviation reflect_Type := (option string).

(** [interface{}]: nil, or a value boxed with its dynamic type. *)
Inductive iface : Type :=
| inil : iface
| ibox (t : string) (v : Z) : iface.

Definition reflect_TypeOf (v : iface) : reflect_Type :=
  match v with
  | inil => None
  | ibox t _ => Some t
  end.

(** The errors the package builds with [fmt.Errorf]; each carries the values
    its format string prints. *)
Inductive error : Type :=
| ErrAlreadyRegistered (argsType resType : reflect_Type)
| ErrUnexpectedResult (expectedRes res : reflect_Type)
| ErrUnknownOperation (args : reflect_Type)
| ErrListenerKey (msg : string)
| ErrNilDereference.

(** ** Event listeners *)

Inductive eventKind : Type := StartEvent | DataEvent | FinishEvent.

#[global] Instance eventKind_eq_dec : EqDecision eventKind.
Proof. solve_decision. Defined.

(** An [EventListener] value: the event it listens to, the payload type it
    watches and its callback, named by a number since its body is opaque. *)
Record EventListener : Type := mkListener {
  l_kind : eventKind;
  l_key : reflect_Type;
  l_callback : nat
}.

(** One registered listener: the identifier its registration got, and the
    callback. *)
Record eventListenerEntry : Type := mkEntry {
  entry_id : nat;
  entry_callback : nat
}.

(** Modelled from the spec: the type [eventRegister] is declared in another
    file of the package.  Each table is "a mapping from a concrete payload
    type to an ordered collection of callbacks", in registration order. *)
Abbreviation eventRegister := (gmap (option string) (list eventListenerEntry)).

(** Modelled from the spec: the struct [eventManager] is declared in another
    file of the package.  It holds the "start/data/finish listener
    collections plus a disabled flag"; the fields [onStart], [onData],
    [onFinish] and [disabled] are the ones [disable] and [EmitData] name. *)
Record eventManager : Type := mkEventManager {
  onStart : eventRegister;
  onData : eventRegister;
  onFinish : eventRegister;
  disabled : bool
}.

Definition zeroEventManager : eventManager := mkEventManager ∅ ∅ ∅ false.

(** [Operation]: the parent pointer (nil for the root), the expected result
    type and the embedded event manager. *)
Record Operation : Type := mkOperation {
  parent : option nat;
  expectedResType : reflect_Type;
  events : eventManager
}.

Definition zeroOperation : Operation := mkOperation None None zeroEventManager.

(** One invocation of a listener callback: the node whose listener it is, the
    event, the callback, and the two arguments it is passed, the operation
    the event is about and the payload. *)
Record Call : Type := mkCall {
  c_node : nat;
  c_kind : eventKind;
  c_callback : nat;
  c_op : nat;
  c_payload : iface
}.

(** ** The state of the package *)

(** The heap of operations (a pointer is an index, and [root] is the first
    allocation), the two package-level registers, the trace of listener
    invocations and the next listener identifier. *)
Record State : Type := mkState {
  heap : list Operation;
  operationRegister : gmap (option string) (option string);
  operationResRegister : gset (option string);
  calls : list Call;
  nextID : nat
}.

Definition set_heap (h : list Operation) (s : State) : State :=
  mkState h (operationRegister s) (operationResRegister s) (calls s) (nextID s).

Definition add_calls (cs : list Call) (s : State) : State :=
  mkState (heap s) (operationRegister s) (operationResRegister s)
          (calls s ++ cs) (nextID s).

Definition set_events (e : eventManager) (op : Operation) : Operation :=
  mkOperation (parent op) (expectedResType op) e.

(** What a call does: it returns, it panics, or (for a walk up a parent
    chain that never reaches nil) it does not terminate. *)
Inductive outcome (A : Type) : Type :=
| Returned (a : A) (s : State)
| Panicked (e : error) (s : State)
| Diverged.
Arguments Returned {A} a s.
Arguments Panicked {A} e s.
Arguments Diverged {A}.

(** [defer d] before a body: [d] runs when the body returns and when it
    panics, and the panic then goes on. *)
Definition defer {A : Type} (d : State -> State) (body : outcome A) : outcome A :=
  match body with
  | Returned a s => Returned a (d s)
  | Panicked e s => Panicked e (d s)
  | Diverged => Diverged
  end.

(** [var root = newOperation()]: the first operation allocated. *)
Definition root : nat := 0.

Definition init : State := mkState [zeroOperation] ∅ ∅ [] 0.

(** ** The register of operations *)

Definition validateExpectedRes (res expectedRes : reflect_Type) : option error :=
  if decide (res = expectedRes) then None
  else Some (ErrUnexpectedResult expectedRes res).

Definition getOperationRes (s : State) (args : reflect_Type)
  : reflect_Type * option error :=
  match operationRegister s !! args with
  | Some res => (res, None)
  | None => (None, Some (ErrUnknownOperation args))
  end.

Section Registration.

(** [validateEventListenerKey] is defined in another file of the package: it
    is a parameter of [RegisterOperation], from a value to its key type or
    an error. *)
Variable validateEventListenerKey : iface -> reflect_Type * option error.

Definition RegisterOperation (args res : iface) (s : State) : outcome unit :=
  match validateEventListenerKey args with
  | (_, Some err) => Panicked err s
  | (argsType, None) =>
    match validateEventListenerKey res with
    | (_, Some err) => Panicked err s
    | (resType, None) =>
      match operationRegister s !! argsType with
      | Some resType' => Panicked (ErrAlreadyRegistered argsType resType') s
      | None =>
        Returned tt
          (mkState (heap s)
                   (<[argsType := resType]> (operationRegister s))
                   ({[resType]} ∪ operationResRegister s)
                   (calls s) (nextID s))
      end
    end
  end.

(** A sequence of calls to [RegisterOperation]; the first panic ends it. *)
Fixpoint RegisterOperations (l : list (iface * iface)) (s : State) : outcome unit :=
  match l with
  | [] => Returned tt s
  | (args, res) :: l' =>
    match RegisterOperation args res s with
    | Returned _ s' => RegisterOperations l' s'
    | other => other
    end
  end.

(** The pair of key types a call registers, and what it is for both keys of
    a call to be valid. *)
Definition keyTypes (x : iface * iface) : reflect_Type * reflect_Type :=
  ((validateEventListenerKey x.1).1, (validateEventListenerKey x.2).1).

Definition validKeys (x : iface * iface) : Prop :=
  (validateEventListenerKey x.1).2 = None ∧
  (validateEventListenerKey x.2).2 = None.

(** The state in which the pairs of [l] have been added to the registers. *)
Definition registerKinds (l : list (iface * iface)) (s : State) : State :=
  mkState (heap s)
          (list_to_map (keyTypes <$> l) ∪ operationRegister s)
          (list_to_set ((keyTypes <$> l).*2) ∪ operationResRegister s)
          (calls s) (nextID s).

End Registration.

(** ** Dispatch *)

Definition eventTable (k : eventKind) (e : eventManager) : eventRegister :=
  match k with
  | StartEvent => onStart e
  | DataEvent => onData e
  | FinishEvent => onFinish e
  end.

Definition set_eventTable (k : eventKind) (r : eventRegister) (e : eventManager)
  : eventManager :=
  match k with
  | StartEvent => mkEventManager r (onData e) (onFinish e) (disabled e)
  | DataEvent => mkEventManager (onStart e) r (onFinish e) (disabled e)
  | FinishEvent => mkEventManager (onStart e) (onData e) r (disabled e)
  end.

(** Modelled from the spec: [callListeners] is defined in another file of
    the package.  "Dispatch for a given event resolves callbacks purely by the
    runtime type of the payload", and "invocation order within one node is
    registration order". *)
Definition callListeners (r : eventRegister) (k : eventKind) (node op : nat)
    (v : iface) : list Call :=
  (fun e => mkCall node k (entry_callback e) op v)
    <$> default [] (r !! reflect_TypeOf v).

(** Modelled from the spec: [emitStartEvent], [emitDataEvent] and
    [emitFinishEvent] are defined in another file of the package.  Each
    invokes the receiving node's listeners of its kind that match the
    payload's type, passing the operation and the payload, and "once
    disabled is true no further events are dispatched through this node". *)
Definition emitEvent (k : eventKind) (node op : nat) (v : iface) (s : State)
  : State :=
  match heap s !! node with
  | Some n =>
    if disabled (events n) then s
    else add_calls (callListeners (eventTable k (events n)) k node op v) s
  | None => s
  end.

Definition emitStartEvent := emitEvent StartEvent.
Definition emitDataEvent := emitEvent DataEvent.
Definition emitFinishEvent := emitEvent FinishEvent.

(** [op.Parent()]. *)
Definition Parent (s : State) (o : nat) : option nat :=
  match heap s !! o with
  | Some op => parent op
  | None => None
  end.

(** [for op := start; op != nil; op = op.Parent() { body(op) }].  The fuel
    bounds the number of iterations; [None] is a walk that is not over when
    the fuel is. *)
Fixpoint bubble (fuel : nat) (body : nat -> State -> State) (op : option nat)
    (s : State) : option State :=
  match op with
  | None => Some s
  | Some a =>
    match fuel with
    | 0 => None
    | S fuel' =>
      let s' := body a s in
      bubble fuel' body (Parent s' a) s'
    end
  end.

(** A chain of distinct operations is no longer than the heap. *)
Definition bubbleUp (body : nat -> State -> State) (op : option nat) (s : State)
  : outcome unit :=
  match bubble (length (heap s)) body op s with
  | Some s' => Returned tt s'
  | None => Diverged
  end.

(** ** Operations *)

(** [Option]: the one option there is sets the parent. *)
Inductive Option : Type :=
| WithParent (parent : option nat).

Definition apply (opt : Option) (op : Operation) : Operation :=
  match opt with
  | WithParent p => mkOperation p (expectedResType op) (events op)
  end.

(** [newOperation]: the zero operation with the options applied in order.
    The value is stored at its address by the caller. *)
Definition newOperation (opts : list Option) : Operation :=
  foldl (fun op opt => apply opt op) zeroOperation opts.

Definition StartOperation (args : iface) (opts : list Option) (s : State)
  : outcome nat :=
  match getOperationRes s (reflect_TypeOf args) with
  | (_, Some err) => Panicked err s
  | (expectedResType, None) =>
    let op := newOperation opts in
    let op := mkOperation (parent op) expectedResType (events op) in
    let op :=
      match parent op with
      | None => mkOperation (Some root) (dyngo.expectedResType op) (events op)
      | Some _ => op
      end in
    let o := length (heap s) in
    let s := set_heap (heap s ++ [op]) s in
    match bubbleUp (fun node => emitStartEvent node o args) (Parent s o) s with
    | Returned _ s' => Returned o s'
    | Panicked e s' => Panicked e s'
    | Diverged => Diverged
    end
  end.

(** Modelled from the spec: [eventRegister.clear] is defined in another file
    of the package; after [disable] "all listener collections" are
    "cleared". *)
Definition clear (r : eventRegister) : eventRegister := ∅.

Definition disable (o : nat) (s : State) : State :=
  match heap s !! o with
  | Some op =>
    let e := events op in
    let e := mkEventManager (onStart e) (onData e) (onFinish e) true in
    let e := mkEventManager (clear (onStart e)) (onData e) (onFinish e) (disabled e) in
    let e := mkEventManager (onStart e) (clear (onData e)) (onFinish e) (disabled e) in
    let e := mkEventManager (onStart e) (onData e) (clear (onFinish e)) (disabled e) in
    set_heap (<[o := set_events e op]> (heap s)) s
  | None => s
  end.

(** A method called through a pointer that names no operation: the nil
    dereference of Go. *)
Definition Finish (o : nat) (results : iface) (s : State) : outcome unit :=
  match heap s !! o with
  | None => Panicked ErrNilDereference s
  | Some op =>
    defer (disable o)
      match validateExpectedRes (reflect_TypeOf results) (expectedResType op) with
      | Some err => Panicked err s
      | None => bubbleUp (fun node => emitFinishEvent node o results) (Some o) s
      end
  end.

Definition EmitData (o : nat) (data : iface) (s : State) : outcome unit :=
  match heap s !! o with
  | None => Panicked ErrNilDereference s
  | Some op =>
    if disabled (events op) then Returned tt s
    else bubbleUp (fun node => emitDataEvent node o data) (Some o) s
  end.

(** ** Registration of listeners *)

(** Modelled from the spec: [eventUnregister] is declared in another file of
    the package.  It names "the specific listener entries added by a prior Register
    call": the table, the key and the identifier of the entry, or nothing
    when no entry was added. *)
Inductive eventUnregister : Type :=
| unregisterNothing
| unregisterEntry (k : eventKind) (key : reflect_Type) (id : nat).

(** Modelled from the spec: [registerTo] is defined in another file of the
    package.  It adds the listener "to O's matching collection (start/data/
    finish, keyed by watched type) if O is Active", behind the listeners
    already there; on a disabled operation it "has no observable effect". *)
Definition registerTo (l : EventListener) (o : nat) (s : State)
  : outcome eventUnregister :=
  match heap s !! o with
  | None => Panicked ErrNilDereference s
  | Some op =>
    if disabled (events op) then Returned unregisterNothing s
    else
      let id := nextID s in
      let r := eventTable (l_kind l) (events op) in
      let r := <[l_key l := default [] (r !! l_key l) ++ [mkEntry id (l_callback l)]]> r in
      let op := set_events (set_eventTable (l_kind l) r (events op)) op in
      Returned (unregisterEntry (l_kind l) (l_key l) id)
        (mkState (<[o := op]> (heap s)) (operationRegister s)
                 (operationResRegister s) (calls s) (S id))
  end.

(** Modelled from the spec: [unregisterFrom] is defined in another file of
    the package.  It "removes the specific listener entries added", is "safe to call
    multiple times and safe to call after the operation disabled itself". *)
Definition unregisterFrom (u : eventUnregister) (o : nat) (s : State) : State :=
  match u with
  | unregisterNothing => s
  | unregisterEntry k key id =>
    match heap s !! o with
    | None => s
    | Some op =>
      let r := eventTable k (events op) in
      match r !! key with
      | None => s
      | Some es =>
        let es := filter (fun e => entry_id e ≠ id) es in
        let op := set_events (set_eventTable k (<[key := es]> r) (events op)) op in
        set_heap (<[o := op]> (heap s)) s
      end
    end
  end.

(** [UnregisterFunc]: the closure [Register] returns, as the values it
    captures. *)
Record UnregisterFunc : Type := mkUnregisterFunc {
  u_op : nat;
  u_ids : list eventUnregister
}.

(** [for i, l := range l { ids[i] = l.registerTo(o) }]. *)
Fixpoint registerAll (l : list EventListener) (o : nat) (s : State)
  : outcome (list eventUnregister) :=
  match l with
  | [] => Returned [] s
  | x :: l' =>
    match registerTo x o s with
    | Returned id s' =>
      match registerAll l' o s' with
      | Returned ids s'' => Returned (id :: ids) s''
      | other => other
      end
    | Panicked e s' => Panicked e s'
    | Diverged => Diverged
    end
  end.

Definition Register (o : nat) (l : list EventListener) (s : State)
  : outcome UnregisterFunc :=
  match registerAll l o s with
  | Returned ids s' => Returned (mkUnregisterFunc o ids) s'
  | Panicked e s' => Panicked e s'
  | Diverged => Diverged
  end.

(** Calling the [UnregisterFunc]. *)
Definition unregister (u : UnregisterFunc) (s : State) : State :=
  foldl (fun s id => unregisterFrom id (u_op u) s) s (u_ids u).

(** ** Programs over the package *)

(** A client of the package, as the sequence of calls it makes.  An operation
    is named by its address; the results are dropped. *)
Inductive command : Type :=
| CStartOperation (args : iface) (opts : list Option)
| CFinish (o : nat) (results : iface)
| CEmitData (o : nat) (data : iface)
| CRegister (o : nat) (l : list EventListener)
| CUnregister (u : UnregisterFunc).

Definition forget {A : Type} (r : outcome A) : outcome unit :=
  match r with
  | Returned _ s => Returned tt s
  | Panicked e s => Panicked e s
  | Diverged => Diverged
  end.

Definition exec (c : command) (s : State) : outcome unit :=
  match c with
  | CStartOperation args opts => forget (StartOperation args opts s)
  | CFinish o results => Finish o results s
  | CEmitData o data => EmitData o data s
  | CRegister o l => forget (Register o l s)
  | CUnregister u => Returned tt (unregister u s)
  end.

Fixpoint run (p : list command) (s : State) : outcome unit :=
  match p with
  | [] => Returned tt s
  | c :: p' =>
    match exec c s with
    | Returned _ s' => run p' s'
    | other => other
    end
  end.

(** ** The shape of the heap *)

(** The ancestors of an operation as the parent pointers give them: [o],
    its parent, and so on up to an operation without parent. *)
Inductive chain (h : list Operation) : nat -> list nat -> Prop :=
| chain_top o op :
    h !! o = Some op -> parent op = None -> chain h o [o]
| chain_up o op p l :
    h !! o = Some op -> parent op = Some p -> chain h p l -> chain h o (o :: l).

(** The listeners of a node that watch a type, in registration order. *)
Definition watching (k : eventKind) (t : reflect_Type) (op : Operation)
  : list eventListenerEntry :=
  default [] (eventTable k (events op) !! t).

(** The invocations of the listeners of kind [k] of the nodes [l], in the
    order of [l], for an event about [o] with payload [v]. *)
Definition delivered (h : list Operation) (k : eventKind) (o : nat) (v : iface)
    (l : list nat) : list Call :=
  n ← l;
  match h !! n with
  | Some op =>
    (fun e => mkCall n k (entry_callback e) o v) <$> watching k (reflect_TypeOf v) op
  | None => []
  end.

Definition cleared (e : eventManager) : bool :=
  bool_decide (onStart e = ∅) && bool_decide (onData e = ∅)
  && bool_decide (onFinish e = ∅).

(** What holds of every operation of the heap: the root alone has no parent,
    a parent was allocated before its child, and a disabled operation has no
    listeners left. *)
Definition node_ok (a : nat) (op : Operation) : bool :=
  match a, parent op with
  | 0, None => true
  | S _, Some p => bool_decide (p < a)
  | _, _ => false
  end
  && (negb (disabled (events op)) || cleared (events op)).

Definition wf_heap (h : list Operation) : Prop :=
  0 < length h ∧ ∀ a op, h !! a = Some op → node_ok a op = true.

Definition wf (s : State) : Prop := wf_heap (heap s).

Definition wfb (s : State) : bool :=
  bool_decide (0 < length (heap s))
  && forallb (fun x => node_ok x.1 x.2) (imap pair (heap s)).

(** The parent pointers handed to [WithParent] name operations of the heap. *)
Definition opts_ok (s : State) (opts : list Option) : Prop :=
  ∀ p, WithParent (Some p) ∈ opts → p < length (heap s).

(** ** A scenario

    An operation for an HTTP request under the root, an operation for the
    parsing of its body under the request, and listeners on the root, on the
    request and on the body. *)

(** A key validation for the scenario: the dynamic type of the value, and an
    error for nil. *)
Definition keyOfValue (v : iface) : reflect_Type * option error :=
  match v with
  | inil => (None, Some (ErrListenerKey "nil key"))
  | ibox t _ => (Some t, None)
  end.

Definition state_of {A : Type} (r : outcome A) : State :=
  match r with
  | Returned _ s => s
  | Panicked _ s => s
  | Diverged => init
  end.

Definition HTTPRequestArgs : iface := ibox "HTTPRequestArgs" 0.
Definition HTTPResponseResult (status : Z) : iface := ibox "HTTPResponseResult" status.
Definition BodyArgs : iface := ibox "BodyArgs" 0.
Definition BodyResult : iface := ibox "BodyResult" 0.

Definition kinds : list (iface * iface) :=
  [(HTTPRequestArgs, HTTPResponseResult 0); (BodyArgs, BodyResult)].

Definition registered : State :=
  state_of (RegisterOperations keyOfValue kinds init).

(** The request is operation 1 and the body operation 2. *)
Definition scenario : State :=
  state_of (run
    [CRegister root [mkListener FinishEvent (Some "HTTPResponseResult") 1;
                     mkListener DataEvent (Some "string") 2;
                     mkListener StartEvent (Some "BodyArgs") 3];
     CStartOperation HTTPRequestArgs [];
     CRegister 1 [mkListener DataEvent (Some "string") 4;
                  mkListener FinishEvent (Some "BodyResult") 5;
                  mkListener StartEvent (Some "BodyArgs") 6];
     CStartOperation BodyArgs [WithParent (Some 1)];
     CRegister 2 [mkListener FinishEvent (Some "BodyResult") 7]]
    registered).

(** The body finished once, with a result of its kind. *)
Definition finished_once : State := state_of (Finish 2 BodyResult scenario).

(** A command whose pointers name operations of the heap. *)
Definition command_ok (s : State) (c : command) : Prop :=
  match c with
  | CStartOperation _ opts => opts_ok s opts
  | _ => True
  end.

(** The two registers agree: the result type of every registered operation
    is in the register of result types. *)
Definition registers_consistent (s : State) : Prop :=
  ∀ argsType resType,
    operationRegister s !! argsType = Some resType →
    resType ∈ operationResRegister s.

(** ** Checked programs *)

(** [opts_ok] and [command_ok] as tests, and a program all of whose commands
    pass the test in the state they are run in. *)
Definition opts_okb (s : State) (opts : list Option) : bool :=
  forallb (fun opt =>
             match opt with
             | WithParent (Some p) => bool_decide (p < length (heap s))
             | WithParent None => true
             end) opts.

Definition command_okb (s : State) (c : command) : bool :=
  match c with
  | CStartOperation _ opts => opts_okb s opts
  | _ => true
  end.

Fixpoint program_ok (p : list command) (s : State) : bool :=
  match p with
  | [] => true
  | c :: p' =>
    command_okb s c &&
    match exec c s with
    | Returned _ s' => program_ok p' s'
    | _ => true
    end
  end.

(** A heap that holds the operations of another with the parent and the
    expected result type they had, and disabled if they were. *)
Definition extends (h h' : list Operation) : Prop :=
  ∀ o op, h !! o = Some op →
    ∃ op', h' !! o = Some op' ∧ parent op' = parent op ∧
      expectedResType op' = expectedResType op ∧
      (disabled (events op) = true → disabled (events op') = true).

(** ** Facts about the heap *)

Lemma wfb_wf s : wfb s = true → wf s.
Proof.
  unfold wfb, wf, wf_heap. rewrite andb_true_iff, bool_decide_eq_true.
  intros [Hlen Hall]. split; [done|]. intros a op Ha.
  rewrite forallb_forall in Hall.
  apply (Hall (a, op)). apply list_elem_of_In, list_elem_of_lookup.
  exists a. by rewrite list_lookup_imap, Ha.
Qed.

Lemma wf_root_lookup h : wf_heap h → ∃ r, h !! root = Some r ∧ parent r = None.
Proof.
  intros [Hlen Hok]. destruct (lookup_lt_is_Some_2 h 0 Hlen) as [r Hr].
  exists r. split; [done|]. specialize (Hok 0 r Hr).
  unfold node_ok in Hok. by destruct (parent r).
Qed.

Lemma wf_parent_lt h a op p :
  wf_heap h → h !! a = Some op → parent op = Some p → p < a.
Proof.
  intros [_ Hok] Ha Hp. specialize (Hok a op Ha). unfold node_ok in Hok.
  rewrite Hp in Hok. destruct a; [done|].
  apply andb_true_iff in Hok as [Hok _]. by apply bool_decide_eq_true in Hok.
Qed.

Lemma wf_parent_None h a op :
  wf_heap h → h !! a = Some op → parent op = None → a = root.
Proof.
  intros [_ Hok] Ha Hp. specialize (Hok a op Ha). unfold node_ok in Hok.
  rewrite Hp in Hok. by destruct a.
Qed.

Lemma wf_disabled_watching h a op k t :
  wf_heap h → h !! a = Some op → disabled (events op) = true →
  watching k t op = [].
Proof.
  intros [_ Hok] Ha Hd. specialize (Hok a op Ha). unfold node_ok in Hok.
  apply andb_true_iff in Hok as [_ Hok]. rewrite Hd in Hok. simpl in Hok.
  unfold cleared in Hok. rewrite !andb_true_iff, !bool_decide_eq_true in Hok.
  destruct Hok as [[H1 H2] H3]. unfold watching.
  destruct k; simpl; rewrite ?H1, ?H2, ?H3; by rewrite lookup_empty.
Qed.

(** Every operation of a well-formed heap has a chain of ancestors; it ends
    at the root and is no longer than the address allows. *)
Lemma chain_exists h :
  wf_heap h →
  ∀ a op, h !! a = Some op →
    ∃ l, chain h a l ∧ last l = Some root ∧ length l ≤ S a.
Proof.
  intros Hwf a. induction a as [a IH] using lt_wf_ind. intros op Ha.
  destruct (parent op) as [p|] eqn:Hp.
  - pose proof (wf_parent_lt _ _ _ _ Hwf Ha Hp) as Hlt.
    destruct (lookup_lt_is_Some_2 h p) as [q Hq].
    { apply lookup_lt_Some in Ha. lia. }
    destruct (IH p Hlt q Hq) as (l & Hc & Hlast & Hlen).
    exists (a :: l). split; [by eapply chain_up|]. split.
    + destruct l; [done|]. by rewrite last_cons_cons.
    + simpl. lia.
  - pose proof (wf_parent_None _ _ _ Hwf Ha Hp) as ->.
    exists [root]. split; [by eapply chain_top|]. split; [done|]. simpl. lia.
Qed.

Lemma chain_unique h a l1 l2 : chain h a l1 → chain h a l2 → l1 = l2.
Proof.
  intros H1. revert l2. induction H1 as [o op Ho Hp|o op p l Ho Hp Hc IH];
    intros l2 H2; inversion H2; subst; simplify_eq; [done|].
  f_equal. by apply IH.
Qed.

Lemma chain_head h a l : chain h a l → head l = Some a.
Proof. by destruct 1. Qed.

Lemma chain_bound h a l : chain h a l → Forall (fun n => n < length h) l.
Proof.
  induction 1 as [o op Ho Hp|o op p l Ho Hp Hc IH].
  - constructor; [by eapply lookup_lt_Some|constructor].
  - constructor; [by eapply lookup_lt_Some|done].
Qed.

Lemma chain_le h a l : wf_heap h → chain h a l → Forall (fun n => n ≤ a) l.
Proof.
  intros Hwf. induction 1 as [o op Ho Hp|o op p l Ho Hp Hc IH].
  - by repeat constructor.
  - constructor; [lia|]. pose proof (wf_parent_lt _ _ _ _ Hwf Ho Hp).
    eapply Forall_impl; [exact IH|]. simpl. lia.
Qed.

Lemma chain_app h x a l : chain h a l → chain (h ++ x) a l.
Proof.
  induction 1 as [o op Ho Hp|o op p l Ho Hp Hc IH].
  - eapply chain_top; [|done]. by apply lookup_app_l_Some.
  - eapply chain_up; [|done|done]. by apply lookup_app_l_Some.
Qed.

(** ** Facts about dispatch *)

Lemma add_calls_nil s : add_calls [] s = s.
Proof. destruct s. unfold add_calls. simpl. by rewrite app_nil_r. Qed.

Lemma add_calls_app a b s : add_calls b (add_calls a s) = add_calls (a ++ b) s.
Proof. unfold add_calls. simpl. by rewrite app_assoc. Qed.

Lemma delivered_cons h k o v n l :
  delivered h k o v (n :: l) = delivered h k o v [n] ++ delivered h k o v l.
Proof. unfold delivered. simpl. by rewrite app_nil_r. Qed.

Lemma emitEvent_heap k n o v s : heap (emitEvent k n o v s) = heap s.
Proof.
  unfold emitEvent. destruct (heap s !! n) as [op|]; [|done].
  by destruct (disabled (events op)).
Qed.

(** On a well-formed heap the dispatch at a node invokes the listeners that
    watch the payload's type: a disabled node has none. *)
Lemma emitEvent_delivered k n o v s op :
  wf s → heap s !! n = Some op →
  emitEvent k n o v s = add_calls (delivered (heap s) k o v [n]) s.
Proof.
  intros Hwf Hn. unfold emitEvent, delivered. simpl. rewrite Hn, app_nil_r.
  destruct (disabled (events op)) eqn:Hd; [|done].
  rewrite (wf_disabled_watching _ _ _ k (reflect_TypeOf v) Hwf Hn Hd).
  simpl. by rewrite add_calls_nil.
Qed.

(** The walk up a chain visits the nodes of the chain in order, and is over
    within as many iterations as the chain has nodes. *)
Lemma bubble_emit k o v h a l :
  chain h a l →
  ∀ s fuel, heap s = h → wf_heap h → length l ≤ fuel →
    bubble fuel (fun n => emitEvent k n o v) (Some a) s
    = Some (add_calls (delivered h k o v l) s).
Proof.
  induction 1 as [n op Hn Hp|n op p l Hn Hp Hc IH]; intros s fuel Hs Hwf Hlen.
  - destruct fuel as [|fuel]; [simpl in Hlen; lia|]. cbn [bubble].
    unfold Parent. rewrite emitEvent_heap, Hs, Hn, Hp.
    destruct fuel; cbn [bubble]; f_equal; subst h; by eapply emitEvent_delivered.
  - destruct fuel as [|fuel]; [simpl in Hlen; lia|]. cbn [bubble].
    unfold Parent. rewrite emitEvent_heap, Hs, Hn, Hp.
    rewrite (IH _ fuel); [| by rewrite emitEvent_heap | done | simpl in Hlen; lia].
    f_equal. subst h. rewrite (emitEvent_delivered _ _ _ _ _ op Hwf Hn).
    by rewrite add_calls_app, <- delivered_cons.
Qed.

Lemma bubbleUp_emit k o v s a op :
  wf s → heap s !! a = Some op →
  ∃ l, chain (heap s) a l ∧ last l = Some root ∧
    bubbleUp (fun n => emitEvent k n o v) (Some a) s
    = Returned tt (add_calls (delivered (heap s) k o v l) s).
Proof.
  intros Hwf Ha. destruct (chain_exists _ Hwf a op Ha) as (l & Hc & Hlast & Hlen).
  exists l. split; [done|]. split; [done|]. unfold bubbleUp.
  rewrite (bubble_emit k o v _ _ _ Hc s (length (heap s)) eq_refl Hwf); [done|].
  apply lookup_lt_Some in Ha. lia.
Qed.

Lemma disable_lookup o op s :
  heap s !! o = Some op →
  heap (disable o s) !! o
  = Some (set_events (mkEventManager ∅ ∅ ∅ true) op).
Proof.
  intros Ho. unfold disable. rewrite Ho. simpl.
  apply list_lookup_insert_eq. by eapply lookup_lt_Some.
Qed.

Lemma disable_lookup_ne o n s : n ≠ o → heap (disable o s) !! n = heap s !! n.
Proof.
  intros Hne. unfold disable. destruct (heap s !! o); [|done]. simpl.
  by apply list_lookup_insert_ne.
Qed.

Lemma disable_calls o s : calls (disable o s) = calls s.
Proof. unfold disable. by destruct (heap s !! o). Qed.

(** ** The lifecycle of an operation *)

(** C3: [EmitData] on an operation that is not disabled returns, and the
    listeners it invokes are the data listeners watching the payload's type
    of the nodes of the operation's chain of ancestors, which starts at the
    operation and ends at the root, node after node in that order. *)
Theorem EmitData_self_to_root s o op d :
  wf s → heap s !! o = Some op → disabled (events op) = false →
  ∃ l, chain (heap s) o l ∧ head l = Some o ∧ last l = Some root ∧
    EmitData o d s
    = Returned tt (add_calls (delivered (heap s) DataEvent o d l) s).
Proof.
  intros Hwf Ho Hd.
  destruct (bubbleUp_emit DataEvent o d s o op Hwf Ho) as (l & Hc & Hlast & Hb).
  exists l. split; [done|]. split; [by eapply chain_head|]. split; [done|].
  unfold EmitData, emitDataEvent. by rewrite Ho, Hd.
Qed.

(** C1: [Finish] with a result of the expected type returns; the listeners
    it invokes are the finish listeners watching that type of the nodes of
    the chain from the operation to the root, in that order; afterwards the
    operation is disabled and its three listener tables are empty, and no
    other operation has changed. *)
Theorem Finish_expected_result s o op r :
  wf s → heap s !! o = Some op →
  reflect_TypeOf r = expectedResType op →
  ∃ l s', chain (heap s) o l ∧ head l = Some o ∧ last l = Some root ∧
    Finish o r s = Returned tt s' ∧
    calls s' = calls s ++ delivered (heap s) FinishEvent o r l ∧
    heap s' !! o = Some (set_events (mkEventManager ∅ ∅ ∅ true) op) ∧
    ∀ n, n ≠ o → heap s' !! n = heap s !! n.
Proof.
  intros Hwf Ho Ht.
  destruct (bubbleUp_emit FinishEvent o r s o op Hwf Ho) as (l & Hc & Hlast & Hb).
  exists l, (disable o (add_calls (delivered (heap s) FinishEvent o r l) s)).
  split; [done|]. split; [by eapply chain_head|]. split; [done|].
  split; [|split; [|split]].
  - unfold Finish, emitFinishEvent, validateExpectedRes. rewrite Ho.
    rewrite decide_True by done. by rewrite Hb.
  - by rewrite disable_calls.
  - by apply disable_lookup.
  - intros n Hn. by rewrite disable_lookup_ne.
Qed.

(** C5: [Finish] with a result whose type is not the expected one panics
    with the error of [validateExpectedRes], and the trace of listener
    invocations is the one before the call. *)
Theorem Finish_unexpected_result_panics s o op r :
  heap s !! o = Some op →
  reflect_TypeOf r ≠ expectedResType op →
  ∃ s', Finish o r s
        = Panicked (ErrUnexpectedResult (expectedResType op) (reflect_TypeOf r)) s'
        ∧ calls s' = calls s.
Proof.
  intros Ho Ht. exists (disable o s). unfold Finish, validateExpectedRes.
  rewrite Ho. rewrite decide_False by done. simpl.
  split; [done|]. apply disable_calls.
Qed.

(** C9: when [Finish] panics on a result of an unexpected type, the deferred
    [disable] has run: in the state the panic leaves, the operation is
    disabled and its three listener tables are empty. *)
Theorem Finish_panic_disables s o op r :
  heap s !! o = Some op →
  reflect_TypeOf r ≠ expectedResType op →
  ∃ e s' op', Finish o r s = Panicked e s' ∧
    heap s' !! o = Some op' ∧
    disabled (events op') = true ∧
    onStart (events op') = ∅ ∧ onData (events op') = ∅ ∧
    onFinish (events op') = ∅.
Proof.
  intros Ho Ht.
  exists (ErrUnexpectedResult (expectedResType op) (reflect_TypeOf r)),
         (disable o s), (set_events (mkEventManager ∅ ∅ ∅ true) op).
  split.
  - unfold Finish, validateExpectedRes. rewrite Ho.
    by rewrite decide_False by done.
  - split; [by apply disable_lookup|done].
Qed.

Lemma registerAll_disabled l o op s :
  heap s !! o = Some op → disabled (events op) = true →
  registerAll l o s = Returned (replicate (length l) unregisterNothing) s.
Proof.
  intros Ho Hd. induction l as [|x l IH]; [done|].
  simpl. unfold registerTo. by rewrite Ho, Hd, IH.
Qed.

Lemma unregister_nothing o n s :
  unregister (mkUnregisterFunc o (replicate n unregisterNothing)) s = s.
Proof. unfold unregister. simpl. by induction n. Qed.

(** C6: on a disabled operation [EmitData] returns and leaves the state as it
    was, the trace of invocations included; [Register] returns and leaves the
    state as it was, so that no listener is added and whatever runs next
    runs as if [Register] had not been called; and calling the
    [UnregisterFunc] it returned changes nothing either. *)
Theorem disabled_EmitData_Register_noop s o op d ls :
  heap s !! o = Some op → disabled (events op) = true →
  EmitData o d s = Returned tt s ∧
  ∃ u, Register o ls s = Returned u s ∧ unregister u s = s ∧
    ∀ p, match exec (CRegister o ls) s with
         | Returned _ s' => run p s'
         | other => other
         end = run p s.
Proof.
  intros Ho Hd. split.
  - unfold EmitData. by rewrite Ho, Hd.
  - exists (mkUnregisterFunc o (replicate (length ls) unregisterNothing)).
    assert (HR : Register o ls s
      = Returned (mkUnregisterFunc o (replicate (length ls) unregisterNothing)) s).
    { unfold Register. by rewrite (registerAll_disabled ls o op s Ho Hd). }
    split; [done|]. split; [apply unregister_nothing|].
    intros p. simpl. by rewrite HR.
Qed.

Lemma foldl_apply opts :
  ∀ op0, let op := foldl (fun op opt => apply opt op) op0 opts in
    events op = events op0 ∧ expectedResType op = expectedResType op0 ∧
    (parent op = parent op0 ∨ WithParent (parent op) ∈ opts).
Proof.
  induction opts as [|[q] opts IH]; intros op0; simpl; [by auto|].
  destruct (IH (mkOperation q (expectedResType op0) (events op0)))
    as (He & Ht & Hp).
  split; [done|]. split; [done|]. destruct Hp as [Hp|Hp].
  - right. simpl in Hp. rewrite Hp. by left.
  - right. by right.
Qed.

Lemma wf_heap_snoc h op :
  wf_heap h → node_ok (length h) op = true → wf_heap (h ++ [op]).
Proof.
  intros [Hlen Hok] Hop. split; [rewrite length_app; lia|].
  intros a x Ha. apply lookup_snoc_Some in Ha as [[_ Ha]|[-> ->]]; [|done].
  by apply Hok.
Qed.

Lemma delivered_app h x k o v l :
  Forall (fun n => n < length h) l →
  delivered (h ++ x) k o v l = delivered h k o v l.
Proof.
  induction 1 as [|n l Hn Hl IH]; [done|].
  rewrite (delivered_cons (h ++ x)), (delivered_cons h), IH. f_equal.
  unfold delivered. simpl. by rewrite lookup_app_l.
Qed.

Lemma delivered_nodes h k o v l c :
  c ∈ delivered h k o v l → c_node c ∈ l ∧ c_kind c = k ∧ c_op c = o ∧ c_payload c = v.
Proof.
  unfold delivered. intros Hc. apply list_elem_of_bind in Hc as (n & Hc & Hn).
  destruct (h !! n) as [op|]; [|by apply elem_of_nil in Hc].
  apply list_elem_of_fmap in Hc as (e & -> & _). by simpl.
Qed.

Lemma StartOperation_returns s args opts res :
  wf s → opts_ok s opts →
  operationRegister s !! reflect_TypeOf args = Some res →
  let o := length (heap s) in
  let p := default root (parent (newOperation opts)) in
  ∃ l s', StartOperation args opts s = Returned o s' ∧
    heap s' = heap s ++ [mkOperation (Some p) res zeroEventManager] ∧
    chain (heap s') o (o :: l) ∧ head l = Some p ∧ last l = Some root ∧
    (o ∉ l) ∧
    calls s' = calls s ++ delivered (heap s) StartEvent o args l ∧
    Forall (fun c => c_node c ≠ o) (delivered (heap s) StartEvent o args l) ∧
    wf s'.
Proof.
  intros Hwf Hopts Hreg o p.
  destruct (foldl_apply opts zeroOperation) as (He & _ & Hp).
  fold (newOperation opts) in He, Hp. simpl in He, Hp.
  assert (Hplt : p < length (heap s)).
  { subst p. destruct (parent (newOperation opts)) as [q|] eqn:Hq; simpl.
    - destruct Hp as [Hp|Hp]; [done|]. by apply Hopts.
    - apply Hwf. }
  set (opn := mkOperation (Some p) res zeroEventManager).
  set (s1 := set_heap (heap s ++ [opn]) s).
  assert (Hwf1 : wf s1).
  { apply wf_heap_snoc; [done|]. unfold node_ok. simpl.
    destruct (length (heap s)) eqn:Hl; [lia|].
    rewrite andb_true_r. apply bool_decide_eq_true. lia. }
  assert (Ho1 : heap s1 !! o = Some opn).
  { simpl. by rewrite lookup_app_r, Nat.sub_diag. }
  destruct (lookup_lt_is_Some_2 (heap s) p Hplt) as [q Hq].
  assert (Hq1 : heap s1 !! p = Some q) by (simpl; by apply lookup_app_l_Some).
  destruct (bubbleUp_emit StartEvent o args s1 p q Hwf1 Hq1)
    as (l & Hc & Hlast & Hb).
  assert (Hle : Forall (fun n => n ≤ p) l) by (by eapply chain_le).
  assert (Hlt : Forall (fun n => n < length (heap s)) l).
  { eapply Forall_impl; [exact Hle|]. simpl. lia. }
  assert (Hnotin : o ∉ l).
  { intros Hin. rewrite Forall_forall in Hlt. specialize (Hlt _ Hin).
    subst o. lia. }
  exists l, (add_calls (delivered (heap s) StartEvent o args l) s1).
  split; [|split; [done|split; [|split; [|split; [done|split; [done|split; [done|split; [|done]]]]]]]].
  - unfold StartOperation, getOperationRes. rewrite Hreg.
    assert (Hop : (let op := newOperation opts in
      let op := mkOperation (parent op) res (events op) in
      match parent op with
      | None => mkOperation (Some root) (expectedResType op) (events op)
      | Some _ => op
      end) = opn).
    { subst opn p. simpl. rewrite He.
      by destruct (parent (newOperation opts)). }
    cbv zeta in Hop. cbv zeta. rewrite Hop. fold o. fold s1.
    unfold Parent. rewrite Ho1. simpl parent. unfold emitStartEvent.
    rewrite Hb. simpl heap. by rewrite delivered_app.
  - by eapply chain_up.
  - by eapply chain_head.
  - apply Forall_forall. intros c Hcin.
    apply delivered_nodes in Hcin as (Hn & _). intros Heq.
    rewrite Heq in Hn. done.
Qed.

(** C2: [StartOperation] on arguments of a registered type returns a fresh
    operation [o] whose parent is the one given, or the root; the chain of
    [o] is [o] followed by its ancestors up to the root, and the listeners
    invoked are the start listeners watching the arguments' type of these
    ancestors, in that order; [o] is not among the nodes visited and no
    invocation is one of a listener of [o]. *)
Theorem StartOperation_ancestors_only s args opts res :
  wf s → opts_ok s opts →
  operationRegister s !! reflect_TypeOf args = Some res →
  let o := length (heap s) in
  let p := default root (parent (newOperation opts)) in
  ∃ l s', StartOperation args opts s = Returned o s' ∧
    heap s' = heap s ++ [mkOperation (Some p) res zeroEventManager] ∧
    chain (heap s') o (o :: l) ∧ head l = Some p ∧ last l = Some root ∧
    (o ∉ l) ∧
    calls s' = calls s ++ delivered (heap s) StartEvent o args l ∧
    Forall (fun c => c_node c ≠ o) (delivered (heap s) StartEvent o args l).
Proof.
  intros Hwf Hopts Hreg o p.
  destruct (StartOperation_returns s args opts res Hwf Hopts Hreg)
    as (l & s' & H1 & H2 & H3 & H4 & H5 & H6 & H7 & H8 & _).
  by exists l, s'.
Qed.

(** C4: finishing an operation a second time.  The body of the scenario is
    finished once and is disabled; the second [Finish], with a result of the
    expected type, returns without panic and invokes no listener of the body,
    but it invokes the finish listener of the request, the body's parent, once
    more: [Finish] walks the chain without looking at [disabled], which
    [EmitData] does look at. *)
Theorem Finish_twice_reinvokes_ancestor_listener :
  (∃ op, heap finished_once !! 2 = Some op ∧ disabled (events op) = true ∧
         expectedResType op = reflect_TypeOf BodyResult) ∧
  calls finished_once
  = calls scenario ++ [mkCall 2 FinishEvent 7 2 BodyResult;
                       mkCall 1 FinishEvent 5 2 BodyResult] ∧
  ∃ s', Finish 2 BodyResult finished_once = Returned tt s' ∧
    calls s' = calls finished_once ++ [mkCall 1 FinishEvent 5 2 BodyResult] ∧
    EmitData 2 BodyResult finished_once = Returned tt finished_once.
Proof.
  split; [|split].
  - eexists. split; [vm_compute; reflexivity|]. by vm_compute.
  - by vm_compute.
  - eexists. split; [vm_compute; reflexivity|]. by vm_compute.
Qed.

(** ** The register of operations *)

Section RegistrationFacts.

Variable validate : iface → reflect_Type * option error.

Local Abbreviation keyTypes := (keyTypes validate).
Local Abbreviation validKeys := (validKeys validate).
Local Abbreviation registerKinds := (registerKinds validate).

Lemma RegisterOperation_duplicate args res s :
  is_Some (operationRegister s !! (validate args).1) →
  ∃ e, RegisterOperation validate args res s = Panicked e s.
Proof.
  intros [r Hr]. unfold RegisterOperation.
  destruct (validate args) as [ta [ea|]]; [by eexists|].
  destruct (validate res) as [tr [er|]]; [by eexists|].
  simpl in Hr. rewrite Hr. by eexists.
Qed.

Lemma RegisterOperations_ok l :
  ∀ s, Forall validKeys l → NoDup ((keyTypes <$> l).*1) →
    Forall (fun x => operationRegister s !! (validate x.1).1 = None) l →
    RegisterOperations validate l s = Returned tt (registerKinds l s).
Proof.
  induction l as [|[a r] l IH]; intros s Hv Hnd Hfresh.
  - simpl. f_equal. destruct s. unfold registerKinds. simpl. f_equal.
    + by rewrite (left_id_L ∅ (∪)).
    + by rewrite (left_id_L ∅ (∪)).
  - apply Forall_cons in Hv as [[Ha Hr] Hv].
    apply Forall_cons in Hfresh as [Hfa Hfresh].
    rewrite fmap_cons, fmap_cons in Hnd. apply NoDup_cons in Hnd as [Hnotin Hnd].
    simpl in Ha, Hr, Hfa, Hnotin. cbn [RegisterOperations].
    unfold RegisterOperation.
    destruct (validate a) as [ta ea] eqn:Hva.
    destruct (validate r) as [tr er] eqn:Hvr. simpl in Ha, Hr, Hfa, Hnotin.
    subst ea er.
    rewrite Hfa. rewrite IH; [|done|done|].
    + f_equal. unfold registerKinds. simpl. unfold keyTypes at 2 4. simpl.
      rewrite Hva, Hvr. simpl. f_equal.
      * rewrite <- insert_union_l. symmetry. apply insert_union_r.
        by apply not_elem_of_list_to_map_1.
      * rewrite (assoc_L (∪)). f_equal. apply (comm_L (∪)).
    + simpl. apply Forall_forall. intros x Hx.
      rewrite Forall_forall in Hfresh. rewrite lookup_insert_ne; [by apply Hfresh|].
      intros Heq. apply Hnotin. apply list_elem_of_fmap. exists (keyTypes x).
      split; [exact Heq|]. apply list_elem_of_fmap. by exists x.
Qed.

Lemma registerKinds_perm l l' s :
  NoDup ((keyTypes <$> l).*1) → l' ≡ₚ l → registerKinds l' s = registerKinds l s.
Proof.
  intros Hnd Hp. unfold registerKinds. f_equal.
  - f_equal. apply list_to_map_proper; [|by rewrite Hp].
    by rewrite Hp.
  - f_equal. apply list_to_set_perm_L. by rewrite Hp.
Qed.

(** C7: a call to [RegisterOperation] whose argument type is in the register
    panics.  A sequence of calls whose keys are valid, whose argument types
    are pairwise distinct and not yet in the register, returns; every pair is
    then in the register, the types not named are as before, and the same
    calls made in another order leave the same state. *)
Theorem RegisterOperation_cumulative s l l' :
  Forall validKeys l → NoDup ((keyTypes <$> l).*1) →
  Forall (fun x => operationRegister s !! (validate x.1).1 = None) l →
  l' ≡ₚ l →
  (∀ s0 args res, is_Some (operationRegister s0 !! (validate args).1) →
     ∃ e, RegisterOperation validate args res s0 = Panicked e s0) ∧
  ∃ s', RegisterOperations validate l s = Returned tt s' ∧
    RegisterOperations validate l' s = Returned tt s' ∧
    (∀ args res, (args, res) ∈ l →
       operationRegister s' !! (validate args).1 = Some (validate res).1 ∧
       (validate res).1 ∈ operationResRegister s' ∧
       ∃ e, RegisterOperation validate args res s' = Panicked e s') ∧
    (∀ t, t ∉ (keyTypes <$> l).*1 →
       operationRegister s' !! t = operationRegister s !! t) ∧
    heap s' = heap s ∧ calls s' = calls s.
Proof.
  intros Hv Hnd Hfresh Hp.
  split; [intros s0 args res; apply RegisterOperation_duplicate|].
  exists (registerKinds l s).
  assert (Hin : ∀ args res, (args, res) ∈ l →
    operationRegister (registerKinds l s) !! (validate args).1
    = Some (validate res).1).
  { intros args res Hx. simpl. apply lookup_union_Some_l.
    apply elem_of_list_to_map_1; [done|].
    apply list_elem_of_fmap. by exists (args, res). }
  split; [by apply RegisterOperations_ok|]. split; [|split; [|split; [|done]]].
  - rewrite <- (registerKinds_perm l l' s Hnd Hp).
    apply RegisterOperations_ok; by rewrite Hp.
  - intros args res Hx. split; [by apply Hin|]. split.
    + simpl. apply elem_of_union_l, elem_of_list_to_set.
      apply list_elem_of_fmap. exists (keyTypes (args, res)). split; [done|].
      apply list_elem_of_fmap. by exists (args, res).
    + apply RegisterOperation_duplicate. rewrite (Hin _ _ Hx). by eexists.
  - intros t Ht. simpl. rewrite lookup_union_r; [done|].
    by apply not_elem_of_list_to_map_1.
Qed.

End RegistrationFacts.

(** ** The shape of the heap is kept *)

Lemma wf_heap_insert h o op op' :
  wf_heap h → h !! o = Some op → parent op' = parent op →
  disabled (events op') = false ∨ cleared (events op') = true →
  wf_heap (<[o := op']> h).
Proof.
  intros [Hlen Hok] Ho Hp Hd. split; [by rewrite length_insert|].
  intros a x Ha. destruct (decide (a = o)) as [->|Hne].
  - rewrite list_lookup_insert_eq in Ha by (by eapply lookup_lt_Some).
    injection Ha as <-. specialize (Hok o op Ho). unfold node_ok in *.
    rewrite Hp. apply andb_true_iff in Hok as [Hok _].
    apply andb_true_iff. split; [done|].
    destruct Hd as [-> | ->]; [done|]. by rewrite orb_true_r.
  - rewrite list_lookup_insert_ne in Ha by done. by apply Hok.
Qed.

Lemma wf_init : wf init.
Proof. apply wfb_wf. by vm_compute. Qed.

Lemma wf_disable o s : wf s → wf (disable o s).
Proof.
  intros Hwf. unfold disable. destruct (heap s !! o) as [op|] eqn:Ho; [|done].
  unfold wf. simpl. eapply wf_heap_insert; [done|done|done|]. by right.
Qed.

Lemma bubble_emit_heap k o v fuel :
  ∀ a s s', bubble fuel (fun n => emitEvent k n o v) a s = Some s' →
    heap s' = heap s.
Proof.
  induction fuel as [|fuel IH]; intros [a|] s s' Hb; simpl in Hb;
    try (by simplify_eq).
  apply IH in Hb. by rewrite emitEvent_heap in Hb.
Qed.

Lemma bubbleUp_emit_heap k o v a s s' :
  bubbleUp (fun n => emitEvent k n o v) a s = Returned tt s' → heap s' = heap s.
Proof.
  unfold bubbleUp. destruct (bubble _ _ _ _) as [s''|] eqn:Hb; [|done].
  intros [= <-]. by eapply bubble_emit_heap.
Qed.

Lemma wf_Finish o r s s' :
  wf s → Finish o r s = Returned tt s' → wf s'.
Proof.
  unfold Finish. intros Hwf. destruct (heap s !! o) as [op|]; [|done].
  destruct (validateExpectedRes _ _); [done|].
  destruct (bubbleUp _ _ _) as [[] s''| |] eqn:Hb; [|done|done].
  simpl. intros [= <-]. apply wf_disable. unfold wf.
  by rewrite (bubbleUp_emit_heap _ _ _ _ _ _ Hb).
Qed.

Lemma wf_EmitData o d s s' :
  wf s → EmitData o d s = Returned tt s' → wf s'.
Proof.
  unfold EmitData. intros Hwf. destruct (heap s !! o) as [op|]; [|done].
  destruct (disabled (events op)); [by intros [= <-]|].
  intros Hb. unfold wf.
  by rewrite (bubbleUp_emit_heap _ _ _ _ _ _ Hb).
Qed.

Lemma set_eventTable_disabled k r e :
  disabled (set_eventTable k r e) = disabled e.
Proof. by destruct k. Qed.

Lemma wf_registerTo l o s u s' :
  wf s → registerTo l o s = Returned u s' → wf s'.
Proof.
  unfold registerTo. intros Hwf. destruct (heap s !! o) as [op|] eqn:Ho; [|done].
  destruct (disabled (events op)) eqn:Hd; [by intros [= _ <-]|].
  intros [= _ <-]. unfold wf. simpl.
  eapply wf_heap_insert; [done|done|done|]. left. simpl.
  by rewrite set_eventTable_disabled.
Qed.

Lemma wf_registerAll l o : ∀ s ids s',
  wf s → registerAll l o s = Returned ids s' → wf s'.
Proof.
  induction l as [|x l IH]; intros s ids s' Hwf; simpl; [by intros [= _ <-]|].
  destruct (registerTo x o s) as [u s1| |] eqn:Hx; [|done|done].
  destruct (registerAll l o s1) as [ids' s2| |] eqn:Hl; [|done|done].
  intros [= _ <-]. eapply IH; [|done]. by eapply wf_registerTo.
Qed.

Lemma wf_unregisterFrom u o s : wf s → wf (unregisterFrom u o s).
Proof.
  intros Hwf. unfold unregisterFrom. destruct u as [|k key id]; [done|].
  destruct (heap s !! o) as [op|] eqn:Ho; [|done].
  destruct (eventTable k (events op) !! key) as [es|] eqn:Hes; [|done].
  unfold wf. simpl. eapply wf_heap_insert; [done|done|done|].
  left. simpl. rewrite set_eventTable_disabled.
  destruct (disabled (events op)) eqn:Hd; [|done].
  pose proof (wf_disabled_watching _ _ _ k key Hwf Ho Hd) as Hw.
  unfold watching in Hw. rewrite Hes in Hw. simpl in Hw. subst es.
  destruct Hwf as [_ Hok]. specialize (Hok o op Ho). unfold node_ok in Hok.
  apply andb_true_iff in Hok as [_ Hok]. rewrite Hd in Hok. simpl in Hok.
  unfold cleared in Hok. rewrite !andb_true_iff, !bool_decide_eq_true in Hok.
  destruct Hok as [[H1 H2] H3].
  destruct k; simpl in Hes; rewrite ?H1, ?H2, ?H3 in Hes;
    by rewrite lookup_empty in Hes.
Qed.

Lemma wf_unregister u s : wf s → wf (unregister u s).
Proof.
  unfold unregister. generalize (u_ids u). intros ids. revert s.
  induction ids as [|id ids IH]; intros s Hwf; simpl; [done|].
  apply IH. by apply wf_unregisterFrom.
Qed.

(** Every call of the package keeps the shape of the heap. *)
Lemma exec_wf c s s' :
  wf s → command_ok s c → exec c s = Returned tt s' → wf s'.
Proof.
  intros Hwf Hok. destruct c as [args opts|o r|o d|o l|u]; simpl.
  - destruct (operationRegister s !! reflect_TypeOf args) as [res|] eqn:Hreg.
    + destruct (StartOperation_returns s args opts res Hwf Hok Hreg)
        as (l & s1 & HS & _ & _ & _ & _ & _ & _ & _ & Hwf1).
      rewrite HS. simpl. by intros [= <-].
    + unfold StartOperation, getOperationRes. by rewrite Hreg.
  - by apply wf_Finish.
  - by apply wf_EmitData.
  - unfold Register. destruct (registerAll l o s) as [ids s1| |] eqn:Hl; [|done|done].
    simpl. intros [= <-]. by eapply wf_registerAll.
  - intros [= <-]. by apply wf_unregister.
Qed.

(** ** The theorems on the scenario *)

Lemma scenario_wf : wf scenario.
Proof. apply wfb_wf. by vm_compute. Defined.

Lemma EmitData_self_to_root_witness :
  ∃ l, chain (heap scenario) 2 l ∧ head l = Some 2 ∧ last l = Some root ∧
    EmitData 2 (ibox "string" 7) scenario
    = Returned tt
        (add_calls (delivered (heap scenario) DataEvent 2 (ibox "string" 7) l)
                   scenario).
Proof.
  eapply EmitData_self_to_root with (s := scenario) (o := 2).
  - apply wfb_wf. by vm_compute.
  - vm_compute. reflexivity.
  - vm_compute. reflexivity.
Defined.

Lemma Finish_expected_result_witness :
  ∃ l s', chain (heap scenario) 2 l ∧
    Finish 2 BodyResult scenario = Returned tt s' ∧
    calls s' = calls scenario ++ delivered (heap scenario) FinishEvent 2 BodyResult l.
Proof.
  edestruct Finish_expected_result with (s := scenario) (o := 2) (r := BodyResult)
    as (l & s' & Hc & _ & _ & HF & Hcalls & _).
  - apply wfb_wf. by vm_compute.
  - vm_compute. reflexivity.
  - vm_compute. reflexivity.
  - exists l, s'. split; [exact Hc|]. split; [exact HF|exact Hcalls].
Defined.

Lemma Finish_unexpected_result_panics_witness :
  ∃ s', Finish 2 (HTTPResponseResult 200) scenario
        = Panicked (ErrUnexpectedResult (Some "BodyResult")
                                        (Some "HTTPResponseResult")) s'
        ∧ calls s' = calls scenario.
Proof.
  edestruct Finish_unexpected_result_panics
    with (s := scenario) (o := 2) (r := HTTPResponseResult 200)
    as (s' & HF & Hcalls).
  - vm_compute. reflexivity.
  - vm_compute. discriminate.
  - exists s'. split; [exact HF|exact Hcalls].
Defined.

Lemma Finish_panic_disables_witness :
  ∃ e s' op', Finish 2 inil scenario = Panicked e s' ∧
    heap s' !! 2 = Some op' ∧ disabled (events op') = true ∧
    onStart (events op') = ∅ ∧ onData (events op') = ∅ ∧
    onFinish (events op') = ∅.
Proof.
  eapply Finish_panic_disables with (s := scenario) (o := 2) (r := inil).
  - vm_compute. reflexivity.
  - vm_compute. discriminate.
Defined.

Lemma disabled_EmitData_Register_noop_witness :
  EmitData 2 (ibox "string" 7) finished_once = Returned tt finished_once ∧
  ∃ u, Register 2 [mkListener DataEvent (Some "string") 8] finished_once
       = Returned u finished_once.
Proof.
  edestruct disabled_EmitData_Register_noop
    with (s := finished_once) (o := 2) (d := ibox "string" 7)
         (ls := [mkListener DataEvent (Some "string") 8])
    as (HE & u & HR & _).
  - vm_compute. reflexivity.
  - vm_compute. reflexivity.
  - split; [exact HE|]. by exists u.
Defined.

Lemma StartOperation_ancestors_only_witness :
  ∃ l s', StartOperation BodyArgs [WithParent (Some 1)] scenario = Returned 3 s' ∧
    chain (heap s') 3 (3 :: l) ∧ head l = Some 1 ∧ last l = Some root ∧
    calls s' = calls scenario ++ delivered (heap scenario) StartEvent 3 BodyArgs l.
Proof.
  edestruct (StartOperation_ancestors_only scenario BodyArgs [WithParent (Some 1)])
    as (l & s' & HS & _ & Hc & Hh & Hl & _ & Hcalls & _).
  - apply wfb_wf. by vm_compute.
  - intros p Hp. apply list_elem_of_singleton in Hp. injection Hp as ->.
    vm_compute. lia.
  - vm_compute. reflexivity.
  - exists l, s'. split; [exact HS|]. split; [exact Hc|]. split; [exact Hh|].
    split; [exact Hl|exact Hcalls].
Defined.

Lemma RegisterOperation_cumulative_witness :
  ∃ s', RegisterOperations keyOfValue kinds init = Returned tt s' ∧
    RegisterOperations keyOfValue (reverse kinds) init = Returned tt s' ∧
    ∃ e, RegisterOperation keyOfValue BodyArgs (HTTPResponseResult 0) s'
         = Panicked e s'.
Proof.
  destruct (RegisterOperation_cumulative keyOfValue init kinds (reverse kinds))
    as [_ (s' & H1 & H2 & H3 & _)].
  - by repeat constructor.
  - apply (bool_decide_unpack _). by vm_compute.
  - by repeat constructor.
  - apply reverse_Permutation.
  - exists s'. split; [exact H1|]. split; [exact H2|].
    apply RegisterOperation_duplicate.
    destruct (H3 BodyArgs BodyResult) as (Hr & _).
    { unfold kinds. apply elem_of_cons. right. apply elem_of_cons. by left. }
    simpl in Hr. simpl. rewrite Hr. by eexists.
Defined.

(** ** Starting, and the parent of the operation started *)

Lemma opts_okb_ok s opts : opts_okb s opts = true → opts_ok s opts.
Proof.
  unfold opts_okb, opts_ok. rewrite forallb_forall. intros H p Hp.
  apply list_elem_of_In, H in Hp. by apply bool_decide_eq_true in Hp.
Qed.

Lemma command_okb_ok s c : command_okb s c = true → command_ok s c.
Proof. destruct c; simpl; [apply opts_okb_ok|done..]. Qed.

(** X1: [StartOperation] returns exactly when the type of its arguments is in the
    register of operations; when it is not, the panic carries the type and
    the state is the one before the call: no operation was allocated and no
    listener invoked. *)
Theorem StartOperation_iff_registered s args opts :
  wf s → opts_ok s opts →
  ((∃ o s', StartOperation args opts s = Returned o s')
   ↔ is_Some (operationRegister s !! reflect_TypeOf args)) ∧
  (operationRegister s !! reflect_TypeOf args = None →
   StartOperation args opts s
   = Panicked (ErrUnknownOperation (reflect_TypeOf args)) s).
Proof.
  intros Hwf Hopts.
  assert (Hnone : operationRegister s !! reflect_TypeOf args = None →
    StartOperation args opts s
    = Panicked (ErrUnknownOperation (reflect_TypeOf args)) s).
  { intros Hreg. unfold StartOperation, getOperationRes. by rewrite Hreg. }
  split; [|done]. split.
  - intros (o & s' & HS).
    destruct (operationRegister s !! reflect_TypeOf args) eqn:Hreg; [done|].
    by rewrite Hnone in HS.
  - intros [res Hreg].
    destruct (StartOperation_returns s args opts res Hwf Hopts Hreg)
      as (l & s' & HS & _). by eexists _, _.
Qed.

Lemma newOperation_last opts p : parent (newOperation (opts ++ [WithParent p])) = p.
Proof. unfold newOperation. by rewrite foldl_app. Qed.

(** X2: Of several [WithParent] options the last one decides, and a nil parent,
    like no option at all, makes the operation a child of the root. *)
Theorem StartOperation_parent s args opts p res :
  wf s → opts_ok s (opts ++ [WithParent p]) →
  operationRegister s !! reflect_TypeOf args = Some res →
  (∃ s', StartOperation args (opts ++ [WithParent p]) s
         = Returned (length (heap s)) s' ∧
         Parent s' (length (heap s)) = Some (default root p)) ∧
  (∃ s', StartOperation args [] s = Returned (length (heap s)) s' ∧
         Parent s' (length (heap s)) = Some root).
Proof.
  intros Hwf Hopts Hreg. split.
  - destruct (StartOperation_returns s args _ res Hwf Hopts Hreg)
      as (l & s' & HS & Hheap & _).
    exists s'. split; [done|]. unfold Parent. rewrite Hheap.
    rewrite lookup_app_r, Nat.sub_diag by done. simpl.
    by rewrite newOperation_last.
  - assert (Hnil : opts_ok s []) by (intros q Hq; by apply elem_of_nil in Hq).
    destruct (StartOperation_returns s args [] res Hwf Hnil Hreg)
      as (l & s' & HS & Hheap & _).
    exists s'. split; [done|]. unfold Parent. rewrite Hheap.
    by rewrite lookup_app_r, Nat.sub_diag by done.
Qed.

(** ** Finishing *)

Lemma Finish_returns s o op r :
  wf s → heap s !! o = Some op → reflect_TypeOf r = expectedResType op →
  ∃ l, chain (heap s) o l ∧ last l = Some root ∧
    Finish o r s
    = Returned tt (disable o (add_calls (delivered (heap s) FinishEvent o r l) s)).
Proof.
  intros Hwf Ho Ht.
  destruct (bubbleUp_emit FinishEvent o r s o op Hwf Ho) as (l & Hc & Hlast & Hb).
  exists l. split; [done|]. split; [done|].
  unfold Finish, emitFinishEvent, validateExpectedRes. rewrite Ho.
  rewrite decide_True by done. by rewrite Hb.
Qed.

(** X3: [Finish] does not look at [disabled]: on an operation that is disabled
    already it returns, and it invokes the finish listeners of the ancestors
    of the operation, from its parent to the root, as the first [Finish]
    did. *)
Theorem Finish_disabled_reaches_ancestors s o op r :
  wf s → heap s !! o = Some op → disabled (events op) = true →
  reflect_TypeOf r = expectedResType op →
  ∃ l s', chain (heap s) o l ∧ head l = Some o ∧
    Finish o r s = Returned tt s' ∧
    calls s' = calls s ++ delivered (heap s) FinishEvent o r (tail l).
Proof.
  intros Hwf Ho Hd Ht.
  destruct (Finish_returns s o op r Hwf Ho Ht) as (l & Hc & _ & HF).
  exists l. eexists. split; [done|]. split; [by eapply chain_head|].
  split; [exact HF|]. rewrite disable_calls. simpl. f_equal.
  assert (Hnone : delivered (heap s) FinishEvent o r [o] = []).
  { unfold delivered. cbn [mbind list_bind]. rewrite Ho.
    by rewrite (wf_disabled_watching _ _ _ _ _ Hwf Ho Hd). }
  destruct Hc as [n x Hn Hp|n x q l Hn Hp Hc]; cbn [tail].
  - exact Hnone.
  - by rewrite delivered_cons, Hnone.
Qed.

(** ** No call diverges, and every call keeps the heap well formed *)

Lemma registerAll_safe l o : ∀ s,
  wf s →
  match registerAll l o s with
  | Returned _ s' | Panicked _ s' => wf s'
  | Diverged => False
  end.
Proof.
  induction l as [|x l IH]; intros s Hwf; simpl; [done|].
  destruct (registerTo x o s) as [u s1|e s1|] eqn:Hx.
  - pose proof (wf_registerTo _ _ _ _ _ Hwf Hx) as Hwf1.
    specialize (IH s1 Hwf1). by destruct (registerAll l o s1).
  - unfold registerTo in Hx. destruct (heap s !! o) as [op|]; [|by simplify_eq].
    by destruct (disabled (events op)).
  - unfold registerTo in Hx. destruct (heap s !! o) as [op|]; [|done].
    by destruct (disabled (events op)).
Qed.

Lemma exec_safe c s :
  wf s → command_ok s c →
  match exec c s with
  | Returned _ s' | Panicked _ s' => wf s'
  | Diverged => False
  end.
Proof.
  intros Hwf Hok. destruct c as [args opts|o r|o d|o l|u]; simpl.
  - destruct (operationRegister s !! reflect_TypeOf args) as [res|] eqn:Hreg.
    + destruct (StartOperation_returns s args opts res Hwf Hok Hreg)
        as (l & s1 & HS & _ & _ & _ & _ & _ & _ & _ & Hwf1).
      by rewrite HS.
    + unfold StartOperation, getOperationRes. by rewrite Hreg.
  - unfold Finish. destruct (heap s !! o) as [op|] eqn:Ho; [|done].
    unfold validateExpectedRes. case_decide as Ht; simpl; [|by apply wf_disable].
    destruct (bubbleUp_emit FinishEvent o r s o op Hwf Ho) as (l & _ & _ & Hb).
    unfold emitFinishEvent. rewrite Hb. simpl. by apply wf_disable.
  - unfold EmitData. destruct (heap s !! o) as [op|] eqn:Ho; [|done].
    destruct (disabled (events op)); [done|].
    destruct (bubbleUp_emit DataEvent o d s o op Hwf Ho) as (l & _ & _ & Hb).
    unfold emitDataEvent. by rewrite Hb.
  - unfold Register. pose proof (registerAll_safe l o s Hwf) as H.
    by destruct (registerAll l o s).
  - by apply wf_unregister.
Qed.

(** X4: A program whose parent pointers name operations of the heap at the time
    they are used never diverges: it returns or it panics, and the heap it
    leaves is well formed: the root alone has no parent, every parent was
    allocated before its child, and a disabled operation has no listener. *)
Theorem run_safe p : ∀ s,
  wf s → program_ok p s = true →
  match run p s with
  | Returned _ s' | Panicked _ s' => wf s'
  | Diverged => False
  end.
Proof.
  induction p as [|c p IH]; intros s Hwf Hok; simpl; [done|].
  simpl in Hok. apply andb_true_iff in Hok as [Hc Hp].
  pose proof (exec_safe c s Hwf (command_okb_ok _ _ Hc)) as Hs.
  destruct (exec c s) as [[] s1|e s1|]; [|done|done].
  by apply IH.
Qed.

(** ** What no call changes *)

Lemma extends_refl h : extends h h.
Proof. intros o op Ho. by exists op. Qed.

Lemma extends_trans h1 h2 h3 : extends h1 h2 → extends h2 h3 → extends h1 h3.
Proof.
  intros H12 H23 o op Ho.
  destruct (H12 o op Ho) as (op2 & Ho2 & Hp2 & Ht2 & Hd2).
  destruct (H23 o op2 Ho2) as (op3 & Ho3 & Hp3 & Ht3 & Hd3).
  exists op3. split; [done|]. split; [congruence|]. split; [congruence|].
  auto.
Qed.

Lemma extends_app h x : extends h (h ++ x).
Proof. intros o op Ho. exists op. split; [by apply lookup_app_l_Some|done]. Qed.

Lemma extends_insert h o op op' :
  h !! o = Some op → parent op' = parent op →
  expectedResType op' = expectedResType op →
  (disabled (events op) = true → disabled (events op') = true) →
  extends h (<[o := op']> h).
Proof.
  intros Ho Hp Ht Hd n x Hn. destruct (decide (n = o)) as [->|Hne].
  - simplify_eq. exists op'. split; [|done].
    apply list_lookup_insert_eq. by eapply lookup_lt_Some.
  - exists x. split; [|done]. by rewrite list_lookup_insert_ne.
Qed.

(** The part of the state a call of the operation API leaves alone. *)
Definition kept (s s' : State) : Prop :=
  extends (heap s) (heap s') ∧
  operationRegister s' = operationRegister s ∧
  operationResRegister s' = operationResRegister s.

Lemma kept_refl s : kept s s.
Proof. split; [apply extends_refl|done]. Qed.

Lemma kept_trans s1 s2 s3 : kept s1 s2 → kept s2 s3 → kept s1 s3.
Proof.
  intros (H1 & H2 & H3) (H4 & H5 & H6).
  split; [by eapply extends_trans|]. split; congruence.
Qed.

Lemma kept_disable o s : kept s (disable o s).
Proof.
  unfold disable. destruct (heap s !! o) as [op|] eqn:Ho; [|apply kept_refl].
  split; [|done]. simpl. by eapply extends_insert.
Qed.

Lemma kept_bubble k o v fuel : ∀ a s s',
  bubble fuel (fun n => emitEvent k n o v) a s = Some s' → kept s s'.
Proof.
  induction fuel as [|fuel IH]; intros [a|] s s' Hb; simpl in Hb;
    try (simplify_eq; by apply kept_refl).
  apply IH in Hb. eapply kept_trans; [|exact Hb].
  unfold emitEvent. destruct (heap s !! a) as [n|]; [|apply kept_refl].
  destruct (disabled (events n)); [apply kept_refl|].
  split; [apply extends_refl|done].
Qed.

Lemma kept_bubbleUp k o v a s s' :
  bubbleUp (fun n => emitEvent k n o v) a s = Returned tt s' → kept s s'.
Proof.
  unfold bubbleUp. destruct (bubble _ _ _ _) as [s1|] eqn:Hb; [|done].
  intros [= <-]. by eapply kept_bubble.
Qed.

Lemma kept_registerTo l o s u s' : registerTo l o s = Returned u s' → kept s s'.
Proof.
  unfold registerTo. destruct (heap s !! o) as [op|] eqn:Ho; [|done].
  destruct (disabled (events op)) eqn:Hd.
  - intros [= _ <-]. apply kept_refl.
  - intros [= _ <-]. split; [|done]. simpl.
    eapply extends_insert; [done|done|done|]. by rewrite Hd.
Qed.

Lemma kept_registerAll l o : ∀ s,
  match registerAll l o s with
  | Returned _ s' | Panicked _ s' => kept s s'
  | Diverged => True
  end.
Proof.
  induction l as [|x l IH]; intros s; simpl; [apply kept_refl|].
  destruct (registerTo x o s) as [u s1|e s1|] eqn:Hx; [| |done].
  - pose proof (kept_registerTo _ _ _ _ _ Hx) as H1. specialize (IH s1).
    destruct (registerAll l o s1); [|by eapply kept_trans|done].
    by eapply kept_trans.
  - unfold registerTo in Hx. destruct (heap s !! o) as [op|].
    + by destruct (disabled (events op)).
    + simplify_eq. apply kept_refl.
Qed.

Lemma kept_unregisterFrom u o s : kept s (unregisterFrom u o s).
Proof.
  unfold unregisterFrom. destruct u as [|k key id]; [apply kept_refl|].
  destruct (heap s !! o) as [op|] eqn:Ho; [|apply kept_refl].
  destruct (eventTable k (events op) !! key) as [es|]; [|apply kept_refl].
  split; [|done]. simpl. eapply extends_insert; [done|done|done|].
  simpl. by rewrite set_eventTable_disabled.
Qed.

Lemma bubbleUp_no_panic body a s e s' : bubbleUp body a s ≠ Panicked e s'.
Proof. unfold bubbleUp. by destruct (bubble _ _ _ _). Qed.

Lemma kept_exec c s :
  match exec c s with
  | Returned _ s' | Panicked _ s' => kept s s'
  | Diverged => True
  end.
Proof.
  destruct c as [args opts|o r|o d|o l|u]; simpl.
  - unfold StartOperation.
    destruct (getOperationRes s (reflect_TypeOf args)) as [res [err|]];
      [apply kept_refl|].
    match goal with |- context [bubbleUp ?f ?a ?st] =>
      destruct (bubbleUp f a st) as [[] s1|e s1|] eqn:Hb end;
      [|by apply bubbleUp_no_panic in Hb|done].
    simpl. apply kept_bubbleUp in Hb. eapply kept_trans; [|exact Hb].
    split; [|done]. simpl. apply extends_app.
  - unfold Finish. destruct (heap s !! o) as [op|]; [|apply kept_refl].
    destruct (validateExpectedRes _ _); simpl; [apply kept_disable|].
    destruct (bubbleUp _ _ _) as [[] s1|e s1|] eqn:Hb;
      [|by apply bubbleUp_no_panic in Hb|done].
    simpl. apply kept_bubbleUp in Hb. eapply kept_trans; [exact Hb|].
    apply kept_disable.
  - unfold EmitData. destruct (heap s !! o) as [op|]; [|apply kept_refl].
    destruct (disabled (events op)); [apply kept_refl|].
    destruct (bubbleUp _ _ _) as [[] s1|e s1|] eqn:Hb;
      [|by apply bubbleUp_no_panic in Hb|done].
    by apply kept_bubbleUp in Hb.
  - unfold Register. pose proof (kept_registerAll l o s) as H.
    by destruct (registerAll l o s).
  - unfold unregister. generalize (u_ids u). intros ids. revert s.
    induction ids as [|id ids IH]; intros s; simpl; [apply kept_refl|].
    eapply kept_trans; [apply kept_unregisterFrom|apply IH].
Qed.

Lemma kept_run p : ∀ s,
  match run p s with
  | Returned _ s' | Panicked _ s' => kept s s'
  | Diverged => True
  end.
Proof.
  induction p as [|c p IH]; intros s; simpl; [apply kept_refl|].
  pose proof (kept_exec c s) as Hc.
  destruct (exec c s) as [[] s1|e s1|]; [|done|done].
  specialize (IH s1). destruct (run p s1); [|by eapply kept_trans|done].
  by eapply kept_trans.
Qed.

(** X5: Whatever a program does, an operation keeps the parent and the expected
    result type it was started with, and a disabled operation stays
    disabled: nothing sets [disabled] back. *)
Theorem run_keeps_operations p s :
  match run p s with
  | Returned _ s' | Panicked _ s' =>
    ∀ o op, heap s !! o = Some op →
      ∃ op', heap s' !! o = Some op' ∧ parent op' = parent op ∧
        expectedResType op' = expectedResType op ∧
        (disabled (events op) = true → disabled (events op') = true)
  | Diverged => True
  end.
Proof.
  pose proof (kept_run p s) as H.
  destruct (run p s); [|by destruct H|done]. by destruct H.
Qed.

(** X6: No call of the operation API writes the register of operations:
    [StartOperation], [Finish], [EmitData], [Register] and unregistration
    leave [operationRegister] and [operationResRegister] as they were. *)
Theorem run_keeps_registers p s :
  match run p s with
  | Returned _ s' | Panicked _ s' =>
    operationRegister s' = operationRegister s ∧
    operationResRegister s' = operationResRegister s
  | Diverged => True
  end.
Proof.
  pose proof (kept_run p s) as H.
  destruct (run p s); [|by destruct H|done]. by destruct H.
Qed.

(** ** From registration to finish *)

(** X7: A kind that is registered can be started and finished: after
    [RegisterOperation] with keys of types [ta] and [tr], [StartOperation] on
    a value of type [ta] returns a child of the root that expects [tr], and
    [Finish] on it with a value of type [tr] returns and leaves it
    disabled. *)
Theorem register_start_finish
    (validate : iface → reflect_Type * option error) s args res a r ta tr :
  wf s → validate args = (ta, None) → validate res = (tr, None) →
  operationRegister s !! ta = None →
  reflect_TypeOf a = ta → reflect_TypeOf r = tr →
  let o := length (heap s) in
  ∃ s1 s2 s3 op,
    RegisterOperation validate args res s = Returned tt s1 ∧
    StartOperation a [] s1 = Returned o s2 ∧
    heap s2 !! o = Some (mkOperation (Some root) tr zeroEventManager) ∧
    Finish o r s2 = Returned tt s3 ∧
    heap s3 !! o = Some op ∧ disabled (events op) = true.
Proof.
  intros Hwf Hva Hvr Hfresh Ha Hr o.
  set (s1 := mkState (heap s) (<[ta := tr]> (operationRegister s))
                     ({[tr]} ∪ operationResRegister s) (calls s) (nextID s)).
  assert (H1 : RegisterOperation validate args res s = Returned tt s1).
  { unfold RegisterOperation. by rewrite Hva, Hvr, Hfresh. }
  assert (Hwf1 : wf s1) by done.
  assert (Hnil : opts_ok s1 []) by (intros q Hq; by apply elem_of_nil in Hq).
  assert (Hreg : operationRegister s1 !! reflect_TypeOf a = Some tr).
  { simpl. rewrite Ha. apply lookup_insert_eq. }
  destruct (StartOperation_returns s1 a [] tr Hwf1 Hnil Hreg)
    as (l & s2 & H2 & Hheap & _ & _ & _ & _ & _ & _ & Hwf2).
  simpl in H2, Hheap. fold o in H2.
  assert (Ho : heap s2 !! o = Some (mkOperation (Some root) tr zeroEventManager)).
  { rewrite Hheap. subst o. by rewrite lookup_app_r, Nat.sub_diag. }
  destruct (Finish_returns s2 o _ r Hwf2 Ho Hr) as (l' & _ & _ & H3).
  eexists s1, s2, _, _. split; [done|]. split; [done|]. split; [done|].
  split; [exact H3|]. split; [by apply disable_lookup|done].
Qed.

(** ** The further theorems on the scenario *)

Lemma StartOperation_iff_registered_witness :
  ((∃ o s', StartOperation (ibox "string" 1) [WithParent (Some 2)] scenario
            = Returned o s')
   ↔ is_Some (operationRegister scenario !! Some "string")) ∧
  StartOperation (ibox "string" 1) [WithParent (Some 2)] scenario
  = Panicked (ErrUnknownOperation (Some "string")) scenario.
Proof.
  destruct (StartOperation_iff_registered scenario (ibox "string" 1)
              [WithParent (Some 2)]) as [Hiff Hnone].
  - apply wfb_wf. by vm_compute.
  - apply opts_okb_ok. by vm_compute.
  - split; [exact Hiff|]. apply Hnone. by vm_compute.
Defined.

Lemma StartOperation_parent_witness :
  ∃ s', StartOperation BodyArgs [WithParent (Some 1); WithParent (Some 2)] scenario
        = Returned 3 s' ∧ Parent s' 3 = Some 2.
Proof.
  destruct (StartOperation_parent scenario BodyArgs [WithParent (Some 1)]
              (Some 2) (Some "BodyResult")) as [(s' & HS & HP) _].
  - apply wfb_wf. by vm_compute.
  - apply opts_okb_ok. by vm_compute.
  - vm_compute. reflexivity.
  - exists s'. split; [exact HS|exact HP].
Defined.

Lemma Finish_disabled_reaches_ancestors_witness :
  ∃ l s', chain (heap finished_once) 2 l ∧
    Finish 2 BodyResult finished_once = Returned tt s' ∧
    calls s' = calls finished_once
               ++ delivered (heap finished_once) FinishEvent 2 BodyResult (tail l).
Proof.
  edestruct Finish_disabled_reaches_ancestors
    with (s := finished_once) (o := 2) (r := BodyResult)
    as (l & s' & Hc & _ & HF & Hcalls).
  - apply wfb_wf. by vm_compute.
  - vm_compute. reflexivity.
  - vm_compute. reflexivity.
  - vm_compute. reflexivity.
  - exists l, s'. split; [exact Hc|]. split; [exact HF|exact Hcalls].
Defined.

Lemma run_safe_witness :
  match run [CStartOperation HTTPRequestArgs [];
             CStartOperation BodyArgs [WithParent (Some 1)];
             CFinish 2 (HTTPResponseResult 200);
             CEmitData 1 (ibox "string" 0)] registered with
  | Returned _ s' | Panicked _ s' => wf s'
  | Diverged => False
  end.
Proof.
  apply run_safe.
  - apply wfb_wf. by vm_compute.
  - by vm_compute.
Defined.

Lemma register_start_finish_witness :
  ∃ s1 s2 s3 op,
    RegisterOperation keyOfValue HTTPRequestArgs (HTTPResponseResult 0) init
    = Returned tt s1 ∧
    StartOperation HTTPRequestArgs [] s1 = Returned 1 s2 ∧
    Finish 1 (HTTPResponseResult 200) s2 = Returned tt s3 ∧
    heap s3 !! 1 = Some op ∧ disabled (events op) = true.
Proof.
  destruct (register_start_finish keyOfValue init HTTPRequestArgs
              (HTTPResponseResult 0) HTTPRequestArgs (HTTPResponseResult 200)
              (Some "HTTPRequestArgs") (Some "HTTPResponseResult"))
    as (s1 & s2 & s3 & op & H1 & H2 & _ & H3 & H4 & H5).
  - apply wfb_wf. by vm_compute.
  - reflexivity.
  - reflexivity.
  - by vm_compute.
  - reflexivity.
  - reflexivity.
  - exists s1, s2, s3, op. split; [exact H1|]. split; [exact H2|].
    split; [exact H3|]. split; [exact H4|exact H5].
Defined.

(** ** The register is written once *)

Lemma RegisterOperation_extends
    (validate : iface → reflect_Type * option error) args res s :
  registers_consistent s →
  match RegisterOperation validate args res s with
  | Returned _ s' | Panicked _ s' =>
    registers_consistent s' ∧
    (∀ a r, operationRegister s !! a = Some r → operationRegister s' !! a = Some r)
  | Diverged => False
  end.
Proof.
  intros Hc. unfold RegisterOperation.
  destruct (validate args) as [ta [ea|]]; [done|].
  destruct (validate res) as [tr [er|]]; [done|].
  destruct (operationRegister s !! ta) as [r0|] eqn:Hta; [done|].
  split.
  - intros a r. simpl. rewrite lookup_insert.
    case_decide as Ha.
    + intros [= <-]. apply elem_of_union_l. by apply elem_of_singleton.
    + intros Hr. apply elem_of_union_r. by eapply Hc.
  - intros a r Hr. simpl. rewrite lookup_insert_ne; [done|]. congruence.
Qed.

(** X8: However a sequence of calls to [RegisterOperation] ends, by returning or
    by the panic of one of them, no entry that was in the register has been
    removed or changed, and the result type of every registered operation is
    in the register of result types if that was so before. *)
Theorem RegisterOperations_write_once
    (validate : iface → reflect_Type * option error) l : ∀ s,
  registers_consistent s →
  match RegisterOperations validate l s with
  | Returned _ s' | Panicked _ s' =>
    registers_consistent s' ∧
    (∀ a r, operationRegister s !! a = Some r → operationRegister s' !! a = Some r)
  | Diverged => False
  end.
Proof.
  induction l as [|[args res] l IH]; intros s Hc; simpl; [done|].
  pose proof (RegisterOperation_extends validate args res s Hc) as H1.
  destruct (RegisterOperation validate args res s) as [[] s1|e s1|]; [|done|done].
  destruct H1 as [Hc1 Hk1]. specialize (IH s1 Hc1).
  destruct (RegisterOperations validate l s1) as [[] s2|e s2|]; [| |done].
  - destruct IH as [Hc2 Hk2]. split; [done|]. auto.
  - destruct IH as [Hc2 Hk2]. split; [done|]. auto.
Qed.

Lemma RegisterOperations_write_once_witness :
  match RegisterOperations keyOfValue
          (kinds ++ [(BodyArgs, HTTPResponseResult 0)]) init with
  | Returned _ s' | Panicked _ s' =>
    registers_consistent s' ∧
    (∀ a r, operationRegister init !! a = Some r →
            operationRegister s' !! a = Some r)
  | Diverged => False
  end.
Proof.
  apply RegisterOperations_write_once.
  intros a r Hr. unfold init in Hr. simpl in Hr.
  by apply lookup_empty_Some in Hr.
Defined.

End dyngo.

Module api.

(** ** The inputs: security events and their contexts

    [appsectypes] and [waftypes] are other packages of the repository; the
    records below have the fields that [api.go] reads.  A pointer in a slice
    is taken to name a value, so that a slice of pointers is a list of
    values.  A [uint64] is an
    [N], an [int] a [Z], a [time.Time] an opaque instant, a [[]byte] the
    string of its bytes. *)

Abbreviation Time := Z.

(** [SpanContext].  [api.go] reads [TraceID] only. *)
Record SpanContext : Type := mkSpanContext {
  TraceID : N;
  SpanID : N
}.

Record HTTPRequestContext : Type := mkHTTPRequestContext {
  req_Method : string;
  req_Host : string;
  req_IsTLS : bool;
  req_Path : string;
  req_RemoteAddr : string;
  req_Headers : gmap string (list string);
  req_Query : gmap string (list string)
}.

Record HTTPResponseContext : Type := mkHTTPResponseContext {
  res_Status : Z
}.

Record HTTPContext : Type := mkHTTPContext {
  http_Request : HTTPRequestContext;
  http_Response : HTTPResponseContext
}.

Record ServiceContext : Type := mkServiceContext {
  svc_Name : string;
  svc_Version : string;
  svc_Environment : string
}.

Record TracerContext : Type := mkTracerContext {
  tracer_Runtime : string;
  tracer_RuntimeVersion : string;
  tracer_Version : string
}.

Record HostContext : Type := mkHostContext {
  host_Hostname : string;
  host_OS : string
}.

(** [SecurityEventContext]: an interface; the type switch of [applyContext]
    knows six implementations and ignores any other. *)
Inductive SecurityEventContext : Type :=
| IsSpanContext (c : SpanContext)
| IsHTTPContext (c : HTTPContext)
| IsServiceContext (c : ServiceContext)
| IsTagContext (c : list string)
| IsTracerContext (c : TracerContext)
| IsHostContext (c : HostContext)
| IsOtherContext.

(** One attack of a security event: when it was detected and the metadata of
    the WAF, still encoded. *)
Record Attack : Type := mkAttack {
  attack_Time : Time;
  attack_Metadata : string
}.

Record SecurityEvent : Type := mkSecurityEvent {
  se_Event : list Attack;
  se_Context : list SecurityEventContext
}.

(** [waftypes.AttackMetadata], decoded: a list of matches, each with the
    filters that matched. *)
Record AttackMetadataFilter : Type := mkFilter {
  f_Operator : string;
  f_OperatorValue : string;
  f_BindingAccessor : string;
  f_ResolvedValue : string;
  f_MatchStatus : string
}.

Record AttackMetadataMatch : Type := mkMatch {
  m_Rule : string;
  m_Flow : string;
  m_Filter : list AttackMetadataFilter
}.

Abbreviation AttackMetadata := (list AttackMetadataMatch).

(** ** The payloads *)

Record AttackRule : Type := mkAttackRule {
  rule_ID : string;
  rule_Name : string
}.

Record AttackRuleMatchParameter : Type := mkParameter {
  param_Name : string;
  param_Value : string
}.

Record AttackRuleMatch : Type := mkAttackRuleMatch {
  rm_Operator : string;
  rm_OperatorValue : string;
  rm_Parameters : list AttackRuleMatchParameter;
  rm_Highlight : list string
}.

Record AttackContextHost : Type := mkAttackContextHost {
  ach_ContextVersion : string;
  ach_OsType : string;
  ach_Hostname : string
}.

Record AttackContextHTTPRequestParameters : Type := mkRequestParameters {
  Query : option (gmap string string)
}.

(** A Go map that may be nil is an [option]. *)
Record attackContextHTTPRequest : Type := mkAttackContextHTTPRequest {
  Scheme : string;
  Method : string;
  URL : string;
  Host : string;
  Port : Z;
  Path : string;
  Resource : string;
  RemoteIP : string;
  RemotePort : Z;
  Headers : option (gmap string string);
  Parameters : AttackContextHTTPRequestParameters
}.

Record attackContextHTTPResponse : Type := mkAttackContextHTTPResponse {
  Status : Z
}.

Record AttackContextHTTP : Type := mkAttackContextHTTP {
  http_ContextVersion : string;
  Request : attackContextHTTPRequest;
  Response : attackContextHTTPResponse
}.

Record AttackContextService : Type := mkAttackContextService {
  acs_ContextVersion : string;
  acs_Name : string;
  acs_Environment : string;
  acs_Version : string
}.

Record AttackContextTags : Type := mkAttackContextTags {
  tags_ContextVersion : string;
  tags_Values : list string
}.

Record AttackContextTrace : Type := mkAttackContextTrace {
  trace_ContextVersion : string;
  trace_ID : string
}.

Record AttackContextSpan : Type := mkAttackContextSpan {
  span_ContextVersion : string;
  span_ID : string
}.

Record AttackContextTracer : Type := mkAttackContextTracer {
  act_ContextVersion : string;
  act_RuntimeType : string;
  act_RuntimeVersion : string;
  act_LibVersion : string
}.

Record AttackContext : Type := mkAttackContext {
  ctx_Host : AttackContextHost;
  ctx_HTTP : AttackContextHTTP;
  ctx_Service : AttackContextService;
  ctx_Tags : option AttackContextTags;
  ctx_Span : AttackContextSpan;
  ctx_Trace : AttackContextTrace;
  ctx_Tracer : AttackContextTracer
}.

Record AttackEvent : Type := mkAttackEvent {
  EventVersion : string;
  EventID : string;
  EventType : string;
  DetectedAt : Time;
  Type_ : string;
  Rule : AttackRule;
  RuleMatch : option AttackRuleMatch;
  Context : option AttackContext
}.

Record EventBatch : Type := mkEventBatch {
  IdempotencyKey : string;
  Events : list AttackEvent
}.

(** The zero value of [AttackContext]. *)
Definition zeroAttackContext : AttackContext :=
  mkAttackContext
    (mkAttackContextHost EmptyString EmptyString EmptyString)
    (mkAttackContextHTTP EmptyString
       (mkAttackContextHTTPRequest EmptyString EmptyString EmptyString
          EmptyString 0 EmptyString EmptyString EmptyString 0 None
          (mkRequestParameters None))
       (mkAttackContextHTTPResponse 0))
    (mkAttackContextService EmptyString EmptyString EmptyString EmptyString)
    None
    (mkAttackContextSpan EmptyString EmptyString)
    (mkAttackContextTrace EmptyString EmptyString)
    (mkAttackContextTracer EmptyString EmptyString EmptyString EmptyString).

(** ** Contexts *)

(** [strconv.FormatUint(i, 10)]: the decimal digits of [i], and the one digit
    0 for zero.  Base 10 is the only base [api.go] asks for. *)
Definition strconv_FormatUint10 (i : N) : string :=
  DecimalString.NilZero.string_of_uint (N.to_uint i).

Fixpoint strings_Join (elems : list string) (sep : string) : string :=
  match elems with
  | [] => EmptyString
  | [x] => x
  | x :: rest => x +:+ sep +:+ strings_Join rest sep
  end.

Definition MakeAttackContextTrace (traceID : string) : AttackContextTrace :=
  mkAttackContextTrace "0.1.0" traceID.

Definition MakeAttackContextSpan (spanID : string) : AttackContextSpan :=
  mkAttackContextSpan "0.1.0" spanID.

Definition makeAttackContextHost (hostname os : string) : AttackContextHost :=
  mkAttackContextHost "0.1.0" os hostname.

Definition makeAttackContextTracer (version rt rtVersion : string)
  : AttackContextTracer :=
  mkAttackContextTracer "0.1.0" rt rtVersion version.

Definition newAttackContextTags (tags : list string) : option AttackContextTags :=
  Some (mkAttackContextTags "0.1.0" tags).

Definition makeServiceContext (name version environment : string)
  : AttackContextService :=
  mkAttackContextService "0.1.0" name environment version.

Definition makeAttackContextHTTPResponse (res : HTTPResponseContext)
  : attackContextHTTPResponse :=
  mkAttackContextHTTPResponse (res_Status res).

Definition makeAttackContextHTTP (req : attackContextHTTPRequest)
    (res : attackContextHTTPResponse) : AttackContextHTTP :=
  mkAttackContextHTTP "0.1.0" req res.

Definition collectedHeaders : list string :=
  ["host"; "x-forwarded-for"; "x-client-ip"; "x-real-ip"; "x-forwarded";
   "x-cluster-client-ip"; "forwarded-for"; "forwarded"; "via";
   "true-client-ip"; "content-length"; "content-type"; "content-encoding";
   "content-language"; "forwarded"; "user-agent"; "accept";
   "accept-encoding"; "accept-language"].

Definition applySpanContext (c : AttackContext) (ctx : SpanContext)
  : AttackContext :=
  let trace := strconv_FormatUint10 (TraceID ctx) in
  let span := strconv_FormatUint10 (TraceID ctx) in
  let c := mkAttackContext (ctx_Host c) (ctx_HTTP c) (ctx_Service c)
             (ctx_Tags c) (ctx_Span c) (MakeAttackContextTrace trace)
             (ctx_Tracer c) in
  mkAttackContext (ctx_Host c) (ctx_HTTP c) (ctx_Service c)
    (ctx_Tags c) (MakeAttackContextSpan span) (ctx_Trace c) (ctx_Tracer c).

Definition applyServiceContext (c : AttackContext) (ctx : ServiceContext)
  : AttackContext :=
  mkAttackContext (ctx_Host c) (ctx_HTTP c)
    (makeServiceContext (svc_Name ctx) (svc_Version ctx) (svc_Environment ctx))
    (ctx_Tags c) (ctx_Span c) (ctx_Trace c) (ctx_Tracer c).

Definition applyTagContext (c : AttackContext) (ctx : list string)
  : AttackContext :=
  mkAttackContext (ctx_Host c) (ctx_HTTP c) (ctx_Service c)
    (newAttackContextTags ctx) (ctx_Span c) (ctx_Trace c) (ctx_Tracer c).

Definition applyTracerContext (c : AttackContext) (ctx : TracerContext)
  : AttackContext :=
  mkAttackContext (ctx_Host c) (ctx_HTTP c) (ctx_Service c) (ctx_Tags c)
    (ctx_Span c) (ctx_Trace c)
    (makeAttackContextTracer (tracer_Version ctx) (tracer_Runtime ctx)
       (tracer_RuntimeVersion ctx)).

Definition applyHostContext (c : AttackContext) (ctx : HostContext)
  : AttackContext :=
  mkAttackContext (makeAttackContextHost (host_Hostname ctx) (host_OS ctx))
    (ctx_HTTP c) (ctx_Service c) (ctx_Tags c) (ctx_Span c) (ctx_Trace c)
    (ctx_Tracer c).

(** ** Kinds of contexts *)

(** Whether two contexts are of the same case of the type switch of
    [applyContext]; a context of no known case is of no kind. *)
Definition same_kind (x y : SecurityEventContext) : bool :=
  match x, y with
  | IsSpanContext _, IsSpanContext _
  | IsHTTPContext _, IsHTTPContext _
  | IsServiceContext _, IsServiceContext _
  | IsTagContext _, IsTagContext _
  | IsTracerContext _, IsTracerContext _
  | IsHostContext _, IsHostContext _ => true
  | _, _ => false
  end.

(** Two attack contexts agree on the fields that belong to the kind of [x]. *)
Definition agree_on (x : SecurityEventContext) (c1 c2 : AttackContext) : Prop :=
  match x with
  | IsSpanContext _ => ctx_Span c1 = ctx_Span c2 ∧ ctx_Trace c1 = ctx_Trace c2
  | IsHTTPContext _ => ctx_HTTP c1 = ctx_HTTP c2
  | IsServiceContext _ => ctx_Service c1 = ctx_Service c2
  | IsTagContext _ => ctx_Tags c1 = ctx_Tags c2
  | IsTracerContext _ => ctx_Tracer c1 = ctx_Tracer c2
  | IsHostContext _ => ctx_Host c1 = ctx_Host c2
  | IsOtherContext => True
  end.

(** ** A world for examples

    A decoder that knows one document, a generator that counts, and an
    address parser that finds no port. *)

Definition example_Unmarshal (md : string) : AttackMetadata * option string :=
  if bool_decide (md = "sqli") then
    ([mkMatch "rule-942100" "sql_injection"
        [mkFilter "@detectSQLi" "libinjection" "query.id" "1 OR 1=1" "1 OR";
         mkFilter "@rx" "select.+from" "query.q" "select * from t" "select"]],
     None)
  else ([], Some "invalid character").

Definition example_NewUUID (g : N) : N * option string * N :=
  (g, None, N.succ g).

Definition example_TrimSpace (addr : string) : string := addr.

Definition example_SplitHostPort (addr : string) : string * string * option string :=
  (EmptyString, EmptyString, Some "missing port in address").

Definition example_Atoi (s : string) : Z * option string :=
  (0%Z, Some "invalid syntax").

Definition example_events : list SecurityEvent :=
  [mkSecurityEvent [mkAttack 100 "sqli"; mkAttack 101 "not json"]
                   [IsSpanContext (mkSpanContext 7 9)];
   mkSecurityEvent [mkAttack 102 "sqli"] []].

Section Intake.

(** The functions of other libraries that [api.go] calls.  Each is a
    parameter, with the result and the error of the Go function. *)
Variable strings_TrimSpace : string → string.
Variable net_SplitHostPort : string → string * string * option string.
Variable strconv_Atoi : string → Z * option string.
Variable json_Unmarshal : string → AttackMetadata * option string.

(** [uuid.NewUUID] reads a clock and a node identifier: [Rand] is the state
    it reads and advances, and [UUID_String] the method [String]. *)
Variable UUID : Type.
Variable Rand : Type.
Variable uuid_NewUUID : Rand → UUID * option string * Rand.
Variable UUID_String : UUID → string.

Definition splitHostPort (addr : string) : string * string :=
  let addr := strings_TrimSpace addr in
  match net_SplitHostPort addr with
  | (host, port, None) => (host, port)
  | (_, _, Some _) =>
    let l := String.length addr in
    if bool_decide (2 ≤ l)
       && bool_decide (String.get 0 addr = Some "["%char)
       && bool_decide (String.get (l - 1) addr = Some "]"%char)
    then (String.substring 1 (l - 2) addr, EmptyString)
    else (addr, EmptyString)
  end.

Definition makeAttackContextHTTPRequest (req : HTTPRequestContext)
  : attackContextHTTPRequest :=
  let '(host, portStr) := splitHostPort (req_Host req) in
  let port := (strconv_Atoi portStr).1 in
  let '(remoteIP, remotePortStr) := splitHostPort (req_RemoteAddr req) in
  let remotePort := (strconv_Atoi remotePortStr).1 in
  let scheme := if req_IsTLS req then "https" else "http" in
  let url := scheme +:+ "://" +:+ req_Host req +:+ req_Path req in
  let headers :=
    if bool_decide (0 < size (req_Headers req)) then
      Some (foldl (fun (headers : gmap string string) k =>
                     match req_Headers req !! k with
                     | Some v => <[k := strings_Join v ";"]> headers
                     | None => headers
                     end) ∅ collectedHeaders)
    else None in
  let query :=
    if bool_decide (0 < size (req_Query req)) then
      Some ((fun v => strings_Join v ";") <$> req_Query req)
    else None in
  mkAttackContextHTTPRequest scheme (req_Method req) url host port
    (req_Path req) EmptyString remoteIP remotePort headers
    (mkRequestParameters query).

Definition applyHTTPContext (c : AttackContext) (ctx : HTTPContext)
  : AttackContext :=
  mkAttackContext (ctx_Host c)
    (makeAttackContextHTTP (makeAttackContextHTTPRequest (http_Request ctx))
       (makeAttackContextHTTPResponse (http_Response ctx)))
    (ctx_Service c) (ctx_Tags c) (ctx_Span c) (ctx_Trace c) (ctx_Tracer c).

Definition applyContext (c : AttackContext) (ctx : SecurityEventContext)
  : AttackContext :=
  match ctx with
  | IsSpanContext actual => applySpanContext c actual
  | IsHTTPContext actual => applyHTTPContext c actual
  | IsServiceContext actual => applyServiceContext c actual
  | IsTagContext actual => applyTagContext c actual
  | IsTracerContext actual => applyTracerContext c actual
  | IsHostContext actual => applyHostContext c actual
  | IsOtherContext => c
  end.

Definition NewAttackContext (ctx globalCtx : list SecurityEventContext)
  : AttackContext :=
  let aCtx := zeroAttackContext in
  let aCtx := foldl applyContext aCtx ctx in
  foldl applyContext aCtx globalCtx.

(** ** Batches of attack events *)

(** What lies outside the function and changes as it runs: the state of the
    UUID generator, and the log of package [log]. *)
Record World : Type := mkWorld {
  rand : Rand;
  logged : list string
}.

Definition M (A : Type) : Type := World → A * World.

Definition ret {A : Type} (a : A) : M A := fun w => (a, w).

Definition bind {A B : Type} (m : M A) (k : A → M B) : M B :=
  fun w => let '(a, w') := m w in k a w'.

Notation "'let*' x := m 'in' k" := (bind m (fun x => k))
  (at level 10, x name, m at level 200, k at level 200).

(** A [for ... range] loop that updates a variable. *)
Fixpoint foldM {A S : Type} (body : S → A → M S) (acc : S) (l : list A) : M S :=
  match l with
  | [] => ret acc
  | x :: l' => let* acc' := body acc x in foldM body acc' l'
  end.

(** [id, _ := uuid.NewUUID()]: the error is dropped. *)
Definition newUUID : M UUID :=
  fun w => let '(id, _, g) := uuid_NewUUID (rand w) in (id, mkWorld g (logged w)).

Definition log_Error (format err : string) : M unit :=
  fun w => (tt, mkWorld (rand w) (logged w ++ [format +:+ err])).

Definition NewAttackEvent (ruleID ruleName attackType : string) (at_ : Time)
    (match_ : option AttackRuleMatch) (attackCtx : option AttackContext)
  : M AttackEvent :=
  let* id := newUUID in
  ret (mkAttackEvent "0.1.0" (UUID_String id) "appsec.threat.attack" at_
         attackType (mkAttackRule ruleID ruleName) match_ attackCtx).

Definition ruleMatchOf (filter : AttackMetadataFilter) : AttackRuleMatch :=
  mkAttackRuleMatch (f_Operator filter) (f_OperatorValue filter)
    [mkParameter (f_BindingAccessor filter) (f_ResolvedValue filter)]
    [f_MatchStatus filter].

Definition FromWAFAttack (t : Time) (md : string)
    (attackContext : option AttackContext)
  : M (list AttackEvent * option string) :=
  match json_Unmarshal md with
  | (_, Some err) => ret ([], Some err)
  | (matches, None) =>
    let* events := foldM (fun events match_ =>
                foldM (fun events filter =>
                  let ruleMatch := Some (ruleMatchOf filter) in
                  let* ev := NewAttackEvent (m_Rule match_) (m_Flow match_)
                               (m_Flow match_) t ruleMatch attackContext in
                  ret (events ++ [ev]))
                  events (m_Filter match_))
              [] matches in
    ret (events, None)
  end.

(** The format of the message logged for an attack that does not decode, up
    to the verb that prints the error. *)
Definition couldNotCreate : string :=
  "appsec: could not create the security event payload out of a waf attack: ".

Definition FromSecurityEvents (events : list SecurityEvent)
    (globalContext : list SecurityEventContext) : M EventBatch :=
  let* id := newUUID in
  let batch := mkEventBatch (UUID_String id) [] in
  let* batchEvents := foldM (fun acc event =>
      let eventContext := Some (NewAttackContext (se_Context event) globalContext) in
      foldM (fun acc attack =>
        let* r := FromWAFAttack (attack_Time attack) (attack_Metadata attack)
                    eventContext in
        match r with
        | (_, Some err) =>
          let* _ := log_Error couldNotCreate err in
          ret acc
        | (attacks, None) => ret (acc ++ attacks)
        end)
        acc (se_Event event))
      (Events batch) events in
  ret (mkEventBatch (IdempotencyKey batch) batchEvents).

(** ** What a batch is expected to hold *)

(** A detected condition: one filter of one match of one attack, with the
    time of the attack and the context of its security event. *)
Record condition : Type := mkCondition {
  cond_Time : Time;
  cond_Context : AttackContext;
  cond_Match : AttackMetadataMatch;
  cond_Filter : AttackMetadataFilter
}.

Definition conditionsOfAttack (ctx : AttackContext) (a : Attack) : list condition :=
  match json_Unmarshal (attack_Metadata a) with
  | (matches, None) =>
    m ← matches; f ← m_Filter m; [mkCondition (attack_Time a) ctx m f]
  | (_, Some _) => []
  end.

Definition conditions (events : list SecurityEvent)
    (globalContext : list SecurityEventContext) : list condition :=
  ev ← events;
  a ← se_Event ev;
  conditionsOfAttack (NewAttackContext (se_Context ev) globalContext) a.

(** The lines logged for the attacks whose metadata does not decode. *)
Definition undecodedAttack (a : Attack) : list string :=
  match json_Unmarshal (attack_Metadata a) with
  | (_, Some err) => [couldNotCreate +:+ err]
  | (_, None) => []
  end.

Definition undecoded (events : list SecurityEvent) : list string :=
  ev ← events; a ← se_Event ev; undecodedAttack a.

(** The record of a condition, given its identifier. *)
Definition eventOf (c : condition) (id : UUID) : AttackEvent :=
  mkAttackEvent "0.1.0" (UUID_String id) "appsec.threat.attack" (cond_Time c)
    (m_Flow (cond_Match c))
    (mkAttackRule (m_Rule (cond_Match c)) (m_Flow (cond_Match c)))
    (Some (ruleMatchOf (cond_Filter c)))
    (Some (cond_Context c)).

(** The first [n] identifiers the generator gives from a state, and the state
    after them. *)
Fixpoint draws (n : nat) (g : Rand) : list UUID :=
  match n with
  | 0 => []
  | S n' => (uuid_NewUUID g).1.1 :: draws n' (uuid_NewUUID g).2
  end.

Fixpoint after (n : nat) (g : Rand) : Rand :=
  match n with
  | 0 => g
  | S n' => after n' (uuid_NewUUID g).2
  end.

(** A loop body collects: it appends to the events it is given the records
    of the conditions of its item, with identifiers drawn in order, and logs
    the lines of its item. *)
Definition collects {A : Type} (body : list AttackEvent → A → M (list AttackEvent))
    (cs : A → list condition) (errs : A → list string) : Prop :=
  ∀ acc x w,
    body acc x w
    = (acc ++ zip_with eventOf (cs x) (draws (length (cs x)) (rand w)),
       mkWorld (after (length (cs x)) (rand w)) (logged w ++ errs x)).

(** ** Facts about the generator *)

Lemma draws_length n : ∀ g, length (draws n g) = n.
Proof. induction n as [|n IH]; intros g; simpl; [done|]. by rewrite IH. Qed.

Lemma draws_add n m : ∀ g, draws (n + m) g = draws n g ++ draws m (after n g).
Proof. induction n as [|n IH]; intros g; simpl; [done|]. by rewrite IH. Qed.

Lemma after_add n m : ∀ g, after (n + m) g = after m (after n g).
Proof. induction n as [|n IH]; intros g; simpl; [done|]. by rewrite IH. Qed.

(** ** Facts about the loops *)

Lemma foldM_collects {A : Type} body (cs : A → list condition) errs :
  collects body cs errs →
  collects (fun acc l => foldM body acc l) (fun l => l ≫= cs) (fun l => l ≫= errs).
Proof.
  intros Hbody acc l. revert acc.
  induction l as [|x l IH]; intros acc w.
  - simpl. unfold ret. destruct w. simpl. by rewrite !app_nil_r.
  - cbn [foldM]. unfold bind. rewrite Hbody, IH. simpl rand. simpl logged.
    rewrite !bind_cons, length_app, draws_add, after_add.
    rewrite zip_with_app by (by rewrite draws_length).
    by rewrite !app_assoc.
Qed.

Lemma NewAttackEvent_collects t ctx m :
  collects
    (fun events filter =>
       let ruleMatch := Some (ruleMatchOf filter) in
       let* ev := NewAttackEvent (m_Rule m) (m_Flow m) (m_Flow m) t ruleMatch
                    (Some ctx) in
       ret (events ++ [ev]))
    (fun f => [mkCondition t ctx m f]) (fun _ => []).
Proof.
  intros acc f w. unfold NewAttackEvent, bind, newUUID, ret. simpl.
  destruct (uuid_NewUUID (rand w)) as [[id e] g]. simpl.
  by rewrite app_nil_r.
Qed.

Lemma collects_ext {A : Type} body (cs cs' : A → list condition) errs errs' :
  collects body cs errs → (∀ x, cs x = cs' x) → (∀ x, errs x = errs' x) →
  collects body cs' errs'.
Proof. intros H Hcs Herrs acc x w. by rewrite <- Hcs, <- Herrs. Qed.

Lemma bind_no_lines {A : Type} (l : list A) : l ≫= (fun _ => @nil string) = [].
Proof. by induction l. Qed.

Lemma matches_collect t ctx :
  collects
    (fun events match_ =>
       foldM (fun events filter =>
                let ruleMatch := Some (ruleMatchOf filter) in
                let* ev := NewAttackEvent (m_Rule match_) (m_Flow match_)
                             (m_Flow match_) t ruleMatch (Some ctx) in
                ret (events ++ [ev]))
             events (m_Filter match_))
    (fun m => f ← m_Filter m; [mkCondition t ctx m f]) (fun _ => []).
Proof.
  intros acc m w.
  rewrite (foldM_collects _ _ _ (NewAttackEvent_collects t ctx m)).
  by rewrite bind_no_lines.
Qed.

Lemma FromWAFAttack_decoded t md ctx w matches :
  json_Unmarshal md = (matches, None) →
  let cs := conditionsOfAttack ctx (mkAttack t md) in
  FromWAFAttack t md (Some ctx) w
  = ((zip_with eventOf cs (draws (length cs) (rand w)), None),
     mkWorld (after (length cs) (rand w)) (logged w)).
Proof.
  intros Hmd cs. unfold FromWAFAttack. rewrite Hmd. unfold bind.
  rewrite (foldM_collects _ _ _ (matches_collect t ctx)).
  rewrite bind_no_lines, app_nil_r. unfold ret. subst cs.
  unfold conditionsOfAttack. simpl. by rewrite Hmd.
Qed.

Lemma attacks_collect globalContext ev :
  let ctx := NewAttackContext (se_Context ev) globalContext in
  collects
    (fun acc attack =>
       let* r := FromWAFAttack (attack_Time attack) (attack_Metadata attack)
                   (Some ctx) in
       match r with
       | (_, Some err) => let* _ := log_Error couldNotCreate err in ret acc
       | (attacks, None) => ret (acc ++ attacks)
       end)
    (conditionsOfAttack ctx) undecodedAttack.
Proof.
  intros ctx acc [t md] w. simpl.
  destruct (json_Unmarshal md) as [matches [err|]] eqn:Hmd.
  - unfold bind, FromWAFAttack, conditionsOfAttack, undecodedAttack. simpl.
    rewrite Hmd. unfold ret, log_Error. simpl. by rewrite app_nil_r.
  - unfold bind. rewrite (FromWAFAttack_decoded t md ctx w matches Hmd).
    unfold ret, undecodedAttack. simpl. rewrite Hmd. by rewrite app_nil_r.
Qed.

Lemma events_collect globalContext :
  collects
    (fun acc event =>
       let eventContext :=
         Some (NewAttackContext (se_Context event) globalContext) in
       foldM (fun acc attack =>
         let* r := FromWAFAttack (attack_Time attack) (attack_Metadata attack)
                     eventContext in
         match r with
         | (_, Some err) => let* _ := log_Error couldNotCreate err in ret acc
         | (attacks, None) => ret (acc ++ attacks)
         end)
         acc (se_Event event))
    (fun ev => a ← se_Event ev;
       conditionsOfAttack (NewAttackContext (se_Context ev) globalContext) a)
    (fun ev => a ← se_Event ev; undecodedAttack a).
Proof.
  intros acc ev w.
  apply (foldM_collects _ _ _ (attacks_collect globalContext ev)).
Qed.

Lemma EventID_zip_with cs : ∀ ids,
  length cs = length ids →
  EventID <$> zip_with eventOf cs ids = UUID_String <$> ids.
Proof.
  induction cs as [|c cs IH]; intros [|id ids] Hlen; simpl in *; try done.
  f_equal. apply IH. lia.
Qed.

(** ** The batch of a list of security events *)

(** C8: the batch of [FromSecurityEvents].  Its key is the string of the
    identifier the generator gives first; its events are the records of the
    detected conditions (one for each filter of each match of each attack
    whose metadata decodes), in order and one for one, with the identifiers
    the generator gives next; an attack whose metadata does not decode adds a
    line to the log and no record.  When the generator does not repeat itself
    over these draws, the key differs from the identifier of every event of
    the batch, and these differ from one another. *)
Theorem FromSecurityEvents_batch events globalContext w :
  let cs := conditions events globalContext in
  let ids := draws (S (length cs)) (rand w) in
  let batch := (FromSecurityEvents events globalContext w).1 in
  let w' := (FromSecurityEvents events globalContext w).2 in
  IdempotencyKey batch = UUID_String (uuid_NewUUID (rand w)).1.1 ∧
  Events batch = zip_with eventOf cs (tail ids) ∧
  length (Events batch) = length cs ∧
  IdempotencyKey batch :: (EventID <$> Events batch) = UUID_String <$> ids ∧
  rand w' = after (S (length cs)) (rand w) ∧
  logged w' = logged w ++ undecoded events ∧
  (NoDup (UUID_String <$> ids) →
   (IdempotencyKey batch ∉ EventID <$> Events batch) ∧
   NoDup (EventID <$> Events batch)).
Proof.
  intros cs ids batch w'.
  assert (HF : FromSecurityEvents events globalContext w
    = (mkEventBatch (UUID_String (uuid_NewUUID (rand w)).1.1)
         (zip_with eventOf cs (tail ids)),
       mkWorld (after (S (length cs)) (rand w)) (logged w ++ undecoded events))).
  { unfold FromSecurityEvents, bind, newUUID.
    destruct (uuid_NewUUID (rand w)) as [[id e] g] eqn:Hid.
    rewrite (foldM_collects _ _ _ (events_collect globalContext)).
    unfold ret. subst ids. simpl. rewrite Hid. by simpl. }
  subst batch w'. rewrite HF. simpl.
  assert (Hlen : length cs = length (draws (length cs) (uuid_NewUUID (rand w)).2))
    by (by rewrite draws_length).
  assert (Hids : EventID <$> zip_with eventOf cs (draws (length cs) (uuid_NewUUID (rand w)).2)
                 = UUID_String <$> draws (length cs) (uuid_NewUUID (rand w)).2)
    by (by apply EventID_zip_with).
  split; [done|]. split; [done|]. split; [by rewrite length_zip_with_l_eq|].
  split; [by rewrite Hids|]. split; [done|]. split; [done|].
  rewrite Hids. intros Hnd. by apply NoDup_cons in Hnd.
Qed.

(** ** Contexts: the last of a kind decides *)

Lemma agree_on_trans x c1 c2 c3 : agree_on x c1 c2 → agree_on x c2 c3 → agree_on x c1 c3.
Proof. destruct x; simpl; try done; try congruence. intros [] []. split; congruence. Qed.

Lemma applyContext_other_kind x y c :
  same_kind x y = false → agree_on x (applyContext c y) c.
Proof. by destruct x, y. Qed.

Lemma applyContext_own_kind x c c' : agree_on x (applyContext c x) (applyContext c' x).
Proof. by destruct x. Qed.

Lemma foldl_applyContext_other_kinds x l :
  Forall (fun y => same_kind x y = false) l →
  ∀ c, agree_on x (foldl applyContext c l) c.
Proof.
  induction 1 as [|y l Hy Hl IH]; intros c; simpl.
  - by destruct x.
  - eapply agree_on_trans; [apply IH|]. by apply applyContext_other_kind.
Qed.

(** X9: [NewAttackContext] applies the contexts of the event and then the global
    ones, as if they were one list.  For each kind of context the last one in
    that order decides the fields of the kind, whatever came before it, so a
    global context overrides a context of the event; and the fields of a kind
    that no context has are those of the zero value. *)
Theorem NewAttackContext_last_of_kind ctx globalCtx l1 x l2 :
  ctx ++ globalCtx = l1 ++ x :: l2 →
  Forall (fun y => same_kind x y = false) l2 →
  NewAttackContext ctx globalCtx = foldl applyContext zeroAttackContext (ctx ++ globalCtx) ∧
  agree_on x (NewAttackContext ctx globalCtx) (applyContext zeroAttackContext x) ∧
  ∀ z, Forall (fun y => same_kind z y = false) (ctx ++ globalCtx) →
       agree_on z (NewAttackContext ctx globalCtx) zeroAttackContext.
Proof.
  intros Hl Hl2.
  assert (HN : NewAttackContext ctx globalCtx
               = foldl applyContext zeroAttackContext (ctx ++ globalCtx)).
  { unfold NewAttackContext. by rewrite foldl_app. }
  split; [done|]. rewrite HN. split.
  - rewrite Hl, foldl_app. simpl.
    eapply agree_on_trans; [by apply foldl_applyContext_other_kinds|].
    apply applyContext_own_kind.
  - intros z Hz. by apply foldl_applyContext_other_kinds.
Qed.

(** ** The headers and the query of a request *)

Lemma collect_lookup (hs : gmap string (list string)) l k :
  ∀ init : gmap string string,
    foldl (fun (headers : gmap string string) k =>
             match hs !! k with
             | Some v => <[k := strings_Join v ";"]> headers
             | None => headers
             end) init l !! k
    = if decide (k ∈ l)
      then match hs !! k with
           | Some v => Some (strings_Join v ";")
           | None => init !! k
           end
      else init !! k.
Proof.
  induction l as [|x l IH]; intros init; cbn [foldl].
  - case_decide as H; [by apply elem_of_nil in H|done].
  - rewrite IH.
    assert (Hstep : ∀ v, k ≠ x →
      (<[x := strings_Join v ";"]> init : gmap string string) !! k = init !! k)
      by (intros v Hne; by rewrite lookup_insert_ne).
    destruct (decide (k ∈ l)) as [Hl|Hl], (decide (k ∈ x :: l)) as [Hxl|Hxl].
    + destruct (hs !! k) as [v|] eqn:Hk; [done|].
      destruct (decide (k = x)) as [->|Hne]; [by rewrite Hk|].
      destruct (hs !! x); [by apply Hstep|done].
    + exfalso. apply Hxl. apply elem_of_cons. by right.
    + apply elem_of_cons in Hxl as [->|Hxl]; [|done].
      destruct (hs !! x) as [v|]; [by rewrite lookup_insert_eq|done].
    + assert (Hne : k ≠ x) by (intros ->; apply Hxl, elem_of_cons; by left).
      destruct (hs !! x); [by apply Hstep|done].
Qed.

(** X10: Only the collected headers go into the payload.  A request without
    headers gives a nil map; otherwise the map holds, for each name of
    [collectedHeaders] that the request has, its values joined by a
    semicolon, and no other name.  The query is nil for a request without
    query, and otherwise has every parameter of the request, its values
    joined by a semicolon. *)
Theorem makeAttackContextHTTPRequest_headers req :
  let r := makeAttackContextHTTPRequest req in
  match Headers r with
  | None => req_Headers req = ∅
  | Some h =>
    req_Headers req ≠ ∅ ∧
    ∀ k, h !! k = if decide (k ∈ collectedHeaders)
                  then (fun v => strings_Join v ";") <$> req_Headers req !! k
                  else None
  end ∧
  match Query (Parameters r) with
  | None => req_Query req = ∅
  | Some q =>
    req_Query req ≠ ∅ ∧
    ∀ k, q !! k = (fun v => strings_Join v ";") <$> req_Query req !! k
  end.
Proof.
  unfold makeAttackContextHTTPRequest.
  destruct (splitHostPort (req_Host req)) as [host portStr].
  destruct (splitHostPort (req_RemoteAddr req)) as [remoteIP remotePortStr].
  cbn [Headers Parameters Query]. generalize collectedHeaders. intros names.
  split.
  - case_bool_decide as Hsz.
    + split; [intros He; rewrite He, map_size_empty in Hsz; lia|].
      intros k. rewrite collect_lookup, lookup_empty.
      case_decide; [|done]. by destruct (req_Headers req !! k).
    + apply map_size_empty_inv. lia.
  - case_bool_decide as Hsz.
    + split; [intros He; rewrite He, map_size_empty in Hsz; lia|].
      intros k. by rewrite lookup_fmap.
    + apply map_size_empty_inv. lia.
Qed.

(** ** Addresses with and without port *)

Lemma string_get_last inner c :
  String.get (String.length inner) (inner +:+ String c EmptyString) = Some c.
Proof. induction inner as [|a inner IH]; simpl; [done|exact IH]. Qed.

Lemma string_substring_prefix inner rest :
  String.substring 0 (String.length inner) (inner +:+ rest) = inner.
Proof.
  induction inner as [|a inner IH]; simpl; [by destruct rest|]. by rewrite IH.
Qed.

Lemma string_length_snoc inner c :
  String.length (inner +:+ String c EmptyString) = S (String.length inner).
Proof. induction inner as [|a inner IH]; simpl; [done|]. by rewrite IH. Qed.

Lemma string_split_last s c :
  s ≠ EmptyString → String.get (String.length s - 1) s = Some c →
  s = String.substring 0 (String.length s - 1) s +:+ String c EmptyString.
Proof.
  induction s as [|a s IH]; intros Hne Hget; [done|].
  destruct (decide (s = EmptyString)) as [->|Hs].
  - simpl in *. by simplify_eq.
  - assert (Hlen : String.length (String a s) - 1 = S (String.length s - 1)).
    { destruct s; [done|]. simpl. lia. }
    rewrite Hlen in Hget. rewrite Hlen.
    change (String.get (String.length s - 1) s = Some c) in Hget.
    change (String a s
            = String a (String.substring 0 (String.length s - 1) s
                        +:+ String c EmptyString)).
    f_equal. by apply IH.
Qed.

Lemma bracketed_facts inner :
  let a := "[" +:+ inner +:+ "]" in
  String.length a = S (S (String.length inner)) ∧
  String.get 0 a = Some "["%char ∧
  String.get (String.length a - 1) a = Some "]"%char ∧
  String.substring 1 (String.length a - 2) a = inner.
Proof.
  intros a. subst a.
  change ("[" +:+ inner +:+ "]")
    with (String "["%char (inner +:+ String "]"%char EmptyString)).
  assert (Hlen : String.length (String "["%char (inner +:+ String "]"%char EmptyString))
                 = S (S (String.length inner))).
  { change (S (String.length (inner +:+ String "]"%char EmptyString))
            = S (S (String.length inner))).
    by rewrite string_length_snoc. }
  rewrite Hlen. split; [done|]. split; [done|].
  replace (S (S (String.length inner)) - 1) with (S (String.length inner)) by lia.
  replace (S (S (String.length inner)) - 2) with (String.length inner) by lia.
  split.
  - change (String.get (String.length inner) (inner +:+ String "]"%char EmptyString)
            = Some "]"%char).
    apply string_get_last.
  - change (String.substring 0 (String.length inner)
              (inner +:+ String "]"%char EmptyString) = inner).
    apply string_substring_prefix.
Qed.

(** X11: [splitHostPort] never fails.  When [net.SplitHostPort] accepts the trimmed
    address, its host and port are returned; when it does not, an address in
    square brackets loses them and any other address is returned as it is,
    and the port is empty in both cases. *)
Theorem splitHostPort_cases addr :
  let a := strings_TrimSpace addr in
  match net_SplitHostPort a with
  | (host, port, None) => splitHostPort addr = (host, port)
  | (_, _, Some _) =>
    (∀ inner, a = "[" +:+ inner +:+ "]" → splitHostPort addr = (inner, EmptyString)) ∧
    ((∀ inner, a ≠ "[" +:+ inner +:+ "]") → splitHostPort addr = (a, EmptyString))
  end.
Proof.
  intros a. unfold splitHostPort. fold a.
  destruct (net_SplitHostPort a) as [[host port] [err|]]; [|done]. split.
  - intros inner Ha. rewrite Ha.
    destruct (bracketed_facts inner) as (Hlen & H0 & Hlast & Hsub).
    rewrite Hsub, !bool_decide_eq_true_2; [done|done|done|].
    rewrite Hlen. lia.
  - intros Hno.
    destruct (bool_decide (2 ≤ String.length a)
              && bool_decide (String.get 0 a = Some "["%char)
              && bool_decide (String.get (String.length a - 1) a = Some "]"%char))
      eqn:Hb; [|done].
    exfalso. rewrite !andb_true_iff, !bool_decide_eq_true in Hb.
    destruct Hb as [[Hlen H0] Hlast].
    destruct a as [|c rest]; [done|]. simpl in H0. injection H0 as ->.
    apply (Hno (String.substring 0 (String.length rest - 1) rest)).
    cbn [String.append]. f_equal.
    assert (Hrest : rest ≠ EmptyString) by (destruct rest; [simpl in Hlen; lia|done]).
    apply string_split_last; [done|].
    destruct rest as [|b rest']; [done|].
    cbn [String.length] in Hlast.
    replace (S (S (String.length rest')) - 1) with (S (String.length rest')) in Hlast by lia.
    cbn [String.get] in Hlast. cbn [String.length].
    by replace (S (String.length rest') - 1) with (String.length rest') by lia.
Qed.

(** ** The events of one attack *)

Lemma Forall_zip_with_eventOf (P : AttackEvent → Prop) cs :
  (∀ c id, c ∈ cs → P (eventOf c id)) → ∀ ids, Forall P (zip_with eventOf cs ids).
Proof.
  induction cs as [|c cs IH]; intros HP [|id ids]; simpl; try by constructor.
  constructor.
  - apply HP. by left.
  - apply IH. intros c' id' Hc'. apply HP. by right.
Qed.

Lemma conditionsOfAttack_elem ctx a c :
  c ∈ conditionsOfAttack ctx a →
  ∃ m f, m ∈ (json_Unmarshal (attack_Metadata a)).1 ∧
    (json_Unmarshal (attack_Metadata a)).2 = None ∧ f ∈ m_Filter m ∧
    c = mkCondition (attack_Time a) ctx m f.
Proof.
  unfold conditionsOfAttack.
  destruct (json_Unmarshal (attack_Metadata a)) as [ms [err|]];
    [by intros ?%elem_of_nil|].
  intros Hc. apply list_elem_of_bind in Hc as (m & Hc & Hm).
  apply list_elem_of_bind in Hc as (f & Hc & Hf).
  apply list_elem_of_singleton in Hc. by exists m, f.
Qed.

Lemma conditionsOfAttack_length ctx a :
  length (conditionsOfAttack ctx a)
  = match json_Unmarshal (attack_Metadata a) with
    | (ms, None) => length (m ← ms; m_Filter m)
    | (_, Some _) => 0
    end.
Proof.
  unfold conditionsOfAttack.
  destruct (json_Unmarshal (attack_Metadata a)) as [ms [err|]]; [done|].
  induction ms as [|m ms IH]; [done|].
  rewrite !bind_cons, !length_app, IH. f_equal.
  generalize (m_Filter m). intros fs. induction fs as [|f fs IHf]; [done|].
  rewrite bind_cons. simpl. by rewrite IHf.
Qed.

(** X12: [FromWAFAttack] on metadata that does not decode returns no event and the
    error, and draws no identifier.  On metadata that decodes, and a context
    that is not nil, it returns as many events as the matches have filters,
    none for a match without filter, drawing as many identifiers; each event
    has the time and the context given, the rule and the flow of a match as
    rule identifier and as both rule name and type, and one filter of that
    match as rule match. *)
Theorem FromWAFAttack_events t md ctx w :
  match json_Unmarshal md with
  | (_, Some err) =>
    ∀ attackContext, FromWAFAttack t md attackContext w = (([], Some err), w)
  | (ms, None) =>
    let r := FromWAFAttack t md (Some ctx) w in
    r.1.2 = None ∧
    length r.1.1 = length (m ← ms; m_Filter m) ∧
    rand r.2 = after (length (m ← ms; m_Filter m)) (rand w) ∧
    logged r.2 = logged w ∧
    Forall (fun e =>
      DetectedAt e = t ∧ Context e = Some ctx ∧
      ∃ m f, m ∈ ms ∧ f ∈ m_Filter m ∧
        Rule e = mkAttackRule (m_Rule m) (m_Flow m) ∧ Type_ e = m_Flow m ∧
        RuleMatch e = Some (ruleMatchOf f)) r.1.1
  end.
Proof.
  destruct (json_Unmarshal md) as [ms [err|]] eqn:Hmd.
  - intros attackContext. unfold FromWAFAttack. by rewrite Hmd.
  - intros r. subst r. rewrite (FromWAFAttack_decoded t md ctx w ms Hmd).
    pose proof (conditionsOfAttack_length ctx (mkAttack t md)) as Hlen.
    simpl in Hlen. rewrite Hmd in Hlen. simpl.
    split; [done|]. split; [|split; [by rewrite Hlen|split; [done|]]].
    + rewrite length_zip_with_l_eq by (by rewrite draws_length). exact Hlen.
    + apply Forall_zip_with_eventOf. intros c id Hc.
      apply conditionsOfAttack_elem in Hc as (m & f & Hm & _ & Hf & ->).
      simpl in Hm. rewrite Hmd in Hm. simpl. split; [done|]. split; [done|].
      by exists m, f.
Qed.

(** ** The events of a batch *)

Lemma FromSecurityEvents_eq events globalContext w :
  let cs := conditions events globalContext in
  FromSecurityEvents events globalContext w
  = (mkEventBatch (UUID_String (uuid_NewUUID (rand w)).1.1)
       (zip_with eventOf cs (draws (length cs) (uuid_NewUUID (rand w)).2)),
     mkWorld (after (length cs) (uuid_NewUUID (rand w)).2)
             (logged w ++ undecoded events)).
Proof.
  intros cs. unfold FromSecurityEvents, bind, newUUID.
  destruct (uuid_NewUUID (rand w)) as [[id e] g] eqn:Hid.
  rewrite (foldM_collects _ _ _ (events_collect globalContext)).
  unfold ret. by simpl.
Qed.

Lemma conditions_elem events globalContext c :
  c ∈ conditions events globalContext →
  ∃ ev a, ev ∈ events ∧ a ∈ se_Event ev ∧
    c ∈ conditionsOfAttack (NewAttackContext (se_Context ev) globalContext) a.
Proof.
  unfold conditions. intros Hc.
  apply list_elem_of_bind in Hc as (ev & Hc & Hev).
  apply list_elem_of_bind in Hc as (a & Hc & Ha). by exists ev, a.
Qed.

(** X13: Every event of a batch comes from the input: it has the time of an
    attack of one of the security events, whose metadata decodes, and the
    context built from the contexts of that security event and the global
    ones; its version and event type are the constants of [NewAttackEvent],
    its rule name is its type, and its rule match has one parameter and one
    highlight. *)
Theorem FromSecurityEvents_events_from_input events globalContext w :
  Forall (fun e =>
    EventVersion e = "0.1.0" ∧ EventType e = "appsec.threat.attack" ∧
    rule_Name (Rule e) = Type_ e ∧
    (∃ ev a, ev ∈ events ∧ a ∈ se_Event ev ∧
       (json_Unmarshal (attack_Metadata a)).2 = None ∧
       DetectedAt e = attack_Time a ∧
       Context e = Some (NewAttackContext (se_Context ev) globalContext)) ∧
    ∃ rm, RuleMatch e = Some rm ∧ length (rm_Parameters rm) = 1 ∧
      length (rm_Highlight rm) = 1)
    (Events (FromSecurityEvents events globalContext w).1).
Proof.
  rewrite FromSecurityEvents_eq. simpl.
  apply Forall_zip_with_eventOf. intros c id Hc.
  apply conditions_elem in Hc as (ev & a & Hev & Ha & Hc).
  apply conditionsOfAttack_elem in Hc as (m & f & _ & Hok & _ & ->).
  simpl. split; [done|]. split; [done|]. split; [done|].
  split; [by exists ev, a|]. by eexists.
Qed.

Lemma undecodable_attacks ctx l :
  Forall (fun a => (json_Unmarshal (attack_Metadata a)).2 ≠ None) l →
  (a ← l; conditionsOfAttack ctx a) = [] ∧
  length (a ← l; undecodedAttack a) = length l.
Proof.
  induction 1 as [|a l Ha _ [IH1 IH2]]; [done|].
  rewrite !bind_cons, IH1, length_app, IH2.
  unfold conditionsOfAttack, undecodedAttack.
  by destruct (json_Unmarshal (attack_Metadata a)) as [ms [err|]].
Qed.

(** X14: When no attack of the input has metadata that decodes (as when there is
    no security event, or no attack), the batch has its key and no event,
    one identifier was drawn, and one line was logged for each attack. *)
Theorem FromSecurityEvents_nothing_decodes events globalContext w :
  Forall (fun ev =>
    Forall (fun a => (json_Unmarshal (attack_Metadata a)).2 ≠ None) (se_Event ev))
    events →
  let r := FromSecurityEvents events globalContext w in
  IdempotencyKey r.1 = UUID_String (uuid_NewUUID (rand w)).1.1 ∧
  Events r.1 = [] ∧
  rand r.2 = (uuid_NewUUID (rand w)).2 ∧
  length (logged r.2) = length (logged w) + length (ev ← events; se_Event ev).
Proof.
  intros Hall r. subst r. rewrite FromSecurityEvents_eq.
  assert (H : conditions events globalContext = [] ∧
              length (undecoded events) = length (ev ← events; se_Event ev)).
  { unfold conditions, undecoded.
    induction Hall as [|ev evs Hev _ [IH1 IH2]]; [done|].
    rewrite !bind_cons, IH1, !length_app, IH2.
    destruct (undecodable_attacks
                (NewAttackContext (se_Context ev) globalContext) _ Hev)
      as [H1 H2].
    by rewrite H1, H2. }
  destruct H as [Hcs Hlog]. rewrite Hcs. simpl. by rewrite length_app, Hlog.
Qed.

End Intake.

(** ** The span of an attack context *)

(** C10: after [applySpanContext] the identifier of the span is the decimal
    rendering of the trace identifier of the span context, the same string as
    the identifier of the trace; it reads back as the trace identifier, and
    the span identifier of the span context has no part in the result. *)
Theorem applySpanContext_span_is_trace c ctx :
  span_ID (ctx_Span (applySpanContext c ctx)) = strconv_FormatUint10 (TraceID ctx) ∧
  span_ID (ctx_Span (applySpanContext c ctx))
  = trace_ID (ctx_Trace (applySpanContext c ctx)) ∧
  N.of_uint <$> DecimalString.NilZero.uint_of_string
                  (span_ID (ctx_Span (applySpanContext c ctx)))
  = Some (TraceID ctx) ∧
  ∀ spanID, applySpanContext c (mkSpanContext (TraceID ctx) spanID)
            = applySpanContext c ctx.
Proof.
  split; [done|]. split; [done|]. split; [|done].
  simpl. unfold strconv_FormatUint10.
  rewrite DecimalString.NilZero.usu.
  - simpl. f_equal. apply DecimalN.Unsigned.of_to.
  - destruct (TraceID ctx) as [|p]; [done|]. simpl.
    apply DecimalPos.Unsigned.to_uint_nonnil.
Qed.

(** ** The batch theorem in the world for examples *)

Lemma FromSecurityEvents_batch_witness :
  let r := FromSecurityEvents example_TrimSpace example_SplitHostPort
             example_Atoi example_Unmarshal N N example_NewUUID
             strconv_FormatUint10 example_events [] (mkWorld N 40%N []) in
  length (Events r.1) = 4 ∧ length (logged N r.2) = 1 ∧
  (IdempotencyKey r.1 ∉ EventID <$> Events r.1) ∧
  NoDup (EventID <$> Events r.1).
Proof.
  intros r.
  destruct (FromSecurityEvents_batch example_TrimSpace example_SplitHostPort
              example_Atoi example_Unmarshal N N example_NewUUID
              strconv_FormatUint10 example_events [] (mkWorld N 40%N []))
    as (_ & _ & Hlen & _ & _ & Hlog & Huniq).
  split; [exact Hlen|]. split; [subst r; rewrite Hlog; reflexivity|].
  apply Huniq. apply (bool_decide_unpack _). by vm_compute.
Defined.

(** ** The further theorems in the world for examples *)

Lemma NewAttackContext_last_of_kind_witness :
  ctx_Trace (NewAttackContext example_TrimSpace example_SplitHostPort example_Atoi
               [IsSpanContext (mkSpanContext 7 9);
                IsHostContext (mkHostContext "web-1" "linux")]
               [IsSpanContext (mkSpanContext 11 12); IsTagContext ["env:prod"]])
  = MakeAttackContextTrace "11".
Proof.
  destruct (NewAttackContext_last_of_kind example_TrimSpace example_SplitHostPort
              example_Atoi
              [IsSpanContext (mkSpanContext 7 9);
               IsHostContext (mkHostContext "web-1" "linux")]
              [IsSpanContext (mkSpanContext 11 12); IsTagContext ["env:prod"]]
              [IsSpanContext (mkSpanContext 7 9);
               IsHostContext (mkHostContext "web-1" "linux")]
              (IsSpanContext (mkSpanContext 11 12))
              [IsTagContext ["env:prod"]])
    as (_ & [_ Htrace] & _).
  - reflexivity.
  - by repeat constructor.
  - exact Htrace.
Defined.

Lemma splitHostPort_cases_witness :
  splitHostPort example_TrimSpace example_SplitHostPort "[::1]"
  = ("::1", EmptyString).
Proof.
  pose proof (splitHostPort_cases example_TrimSpace example_SplitHostPort "[::1]")
    as [H _].
  by apply H.
Defined.

Lemma FromSecurityEvents_nothing_decodes_witness :
  let r := FromSecurityEvents example_TrimSpace example_SplitHostPort
             example_Atoi example_Unmarshal N N example_NewUUID
             strconv_FormatUint10
             [mkSecurityEvent [mkAttack 1 "not json"; mkAttack 2 "{"] []] []
             (mkWorld N 40%N []) in
  IdempotencyKey r.1 = "40" ∧ Events r.1 = [] ∧ length (logged N r.2) = 2.
Proof.
  intros r.
  destruct (FromSecurityEvents_nothing_decodes example_TrimSpace
              example_SplitHostPort example_Atoi example_Unmarshal N N
              example_NewUUID strconv_FormatUint10
              [mkSecurityEvent [mkAttack 1 "not json"; mkAttack 2 "{"] []] []
              (mkWorld N 40%N []))
    as (Hkey & Hev & _ & Hlog).
  - repeat constructor; by vm_compute.
  - split; [exact Hkey|]. split; [exact Hev|exact Hlog].
Defined.

End api.
